(** * BpmnModdleParser: from a BPMN object graph to a process tree

    A shallow embedding of [src/utils/BpmnModdleParser.ts].  The bpmn-moddle
    object graph is a heap of elements addressed by position; the parser's
    [processTreeNodes] field is a state threaded through every method, and a
    thrown JavaScript exception keeps whatever that field held when it was
    raised.  The methods recurse along the graph, which may be cyclic, so
    they take fuel: one unit per call and per loop iteration.  The objects
    the parser builds - the table and the objects of the tree - are
    modelled by their own properties, the part of an object that
    [Object.keys], [JSON.stringify] and a consumer iterating over it see. *)

From stdpp Require Import base strings gmap list option.

(** ** The object graph *)

(** A reference to a moddle object.  A reference that does not resolve in
    the heap plays the role of [undefined]. *)
Definition addr := nat.

(** One moddle object.  [FlowNode], [SequenceFlow], [Process] and
    [SubProcess] are all plain JavaScript objects, so a single record holds
    the properties the parser reads.  Every property but [$type] and [id]
    may be [undefined]: [e_name], [e_attrs], [e_outgoing] and [e_targetRef]
    are guarded by the parser; [flowElements], which bpmn-moddle leaves
    undefined on a process without children, and [sourceRef] are read
    unguarded, so the lookup throws when one of them is missing. *)
Record Element := mkElement {
  e_type : string;                      (* $type *)
  e_id : string;                        (* id *)
  e_name : option string;               (* name *)
  e_attrs : option (gmap string string);(* $attrs *)
  e_outgoing : option (list addr);      (* FlowNode.outgoing *)
  e_flowElements : option (list addr);  (* Process.flowElements *)
  e_sourceRef : option addr;            (* SequenceFlow.sourceRef *)
  e_targetRef : option addr             (* SequenceFlow.targetRef *)
}.

Definition Heap := list Element.

(** A resolved reference: the address together with the object found there. *)
Definition Node := (addr * Element)%type.

Definition deref (h : Heap) (r : option addr) : option Node :=
  match r with
  | Some a => match h !! a with Some e => Some (a, e) | None => None end
  | None => None
  end.

(** [Definitions] of bpmn-moddle: only [rootElements] is read. *)
Record Definitions := mkDefinitions { rootElements : list addr }.

(** ** The process tree *)

(** [ProcessTreeStructure] values are JSON-like: strings, arrays and objects
    with string keys. *)
#[local] Unset Elimination Schemes.
Inductive Tree :=
| JStr (s : string)
| JArr (items : list Tree)
| JObj (entries : list (string * Tree)).
#[local] Set Elimination Schemes.

Record ProcessTreeNodeInfo := mkInfo { label : string; concept : string }.

(** [obj[key] = value] on an object that was created by the literal [{}].
    Such an object inherits the accessor [__proto__] of [Object.prototype]:
    assigning an object under that name replaces the prototype and creates
    no own property, so the key never shows among the object's own keys,
    which are all that printing, serialising and [Object.keys] see.  Every
    other name becomes an own property. *)
Definition assign {V} (key : string) (value : V) (obj : gmap string V)
    : gmap string V :=
  if decide (key = "__proto__") then obj else <[key := value]> obj.

(** [const o = {}; o[key] = value; o] for a process tree. *)
Definition objectWith (key : string) (value : Tree) : Tree :=
  JObj (if decide (key = "__proto__") then [] else [(key, value)]).

Record ProcessTree := mkProcessTree {
  tree : Tree;
  nodeInfo : gmap string ProcessTreeNodeInfo
}.

(** ** Exceptions and the parser monad *)

Inductive Exn :=
| Error (msg : string)   (* throw new Error(msg) *)
| TypeError.             (* property access on undefined *)

Definition MalformedGraph : Exn := Error "Startevent is not connected to flow!".
Definition InconsistentJoin : Exn :=
  Error "Something is wrong with the structure of your diagram!".
Definition MissingOperationBinding : Exn :=
  Error "Not all elements are correctly configured with an RPA operation.".

Inductive Outcome (A : Type) :=
| Ok (a : A)
| Throw (e : Exn)
| OutOfFuel.
Arguments Ok {A} a.
Arguments Throw {A} e.
Arguments OutOfFuel {A}.

(** A method of the parser instance: it reads and writes
    [this.processTreeNodes]; the table survives a thrown exception. *)
Definition M (A : Type) : Type :=
  gmap string ProcessTreeNodeInfo → Outcome A * gmap string ProcessTreeNodeInfo.

Definition ret {A} (a : A) : M A := λ t, (Ok a, t).
Definition throw {A} (e : Exn) : M A := λ t, (Throw e, t).
Definition outOfFuel {A} : M A := λ t, (OutOfFuel, t).
Definition bind {A B} (m : M A) (k : A → M B) : M B :=
  λ t, match m t with
       | (Ok a, t') => k a t'
       | (Throw e, t') => (Throw e, t')
       | (OutOfFuel, t') => (OutOfFuel, t')
       end.
Definition lift {A} (o : Outcome A) : M A := λ t, (o, t).

Notation "'let*' x ':=' m 'in' k" := (bind m (λ x, k))
  (at level 10, x pattern, m at level 100, k at level 200, only parsing).
Notation "'do' m 'then' k" := (bind m (λ _, k))
  (at level 10, m at level 100, k at level 200, only parsing).

(** ** Static helpers *)

(** ["rpa:operation" in element.$attrs], with [$attrs] possibly undefined. *)
Definition operationOf (e : Element) : option string :=
  match e_attrs e with
  | Some m => m !! "rpa:operation"
  | None => None
  end.

Definition hasOperation (e : Element) : bool :=
  match operationOf e with Some _ => true | None => false end.

(** [element.name || element.id]: an absent or empty name is falsy. *)
Definition labelOf (e : Element) : string :=
  match e_name e with
  | Some n => if decide (n = "") then e_id e else n
  | None => e_id e
  end.

Definition getProcessNodeInfo (e : Element) : Outcome ProcessTreeNodeInfo :=
  match operationOf e with
  | None => Throw MissingOperationBinding
  | Some op => Ok {| label := labelOf e; concept := op |}
  end.

Definition addProcessNodeInfo (e : Element) : M unit :=
  λ t, match getProcessNodeInfo e with
       | Ok i => (Ok (), assign (e_id e) i t)
       | Throw x => (Throw x, t)
       | OutOfFuel => (OutOfFuel, t)
       end.

(** [element.name || element.id + " (" + element.$type + ")"]: [+] binds
    tighter than [||], so the suffix belongs to the id alone. *)
Definition elementToString (e : Element) : string :=
  match e_name e with
  | Some n =>
      if decide (n = "") then e_id e +:+ " (" +:+ e_type e +:+ ")" else n
  | None => e_id e +:+ " (" +:+ e_type e +:+ ")"
  end.

Section Parser.
Variable h : Heap.

(** [process.flowElements.filter(fe => fe.$type === "bpmn:SequenceFlow")] *)
Fixpoint filterSequenceFlows (fes : list addr) : Outcome (list Node) :=
  match fes with
  | [] => Ok []
  | a :: rest =>
      match h !! a with
      | None => Throw TypeError
      | Some fe =>
          match filterSequenceFlows rest with
          | Ok sfs =>
              if decide (e_type fe = "bpmn:SequenceFlow")
              then Ok ((a, fe) :: sfs) else Ok sfs
          | other => other
          end
      end
  end.

(** [sequenceFlows.find(sf => sf.sourceRef.$type === "bpmn:StartEvent")] *)
Fixpoint findStartFlow (sfs : list Node) : Outcome (option Node) :=
  match sfs with
  | [] => Ok None
  | sf :: rest =>
      match deref h (e_sourceRef (snd sf)) with
      | None => Throw TypeError
      | Some src =>
          if decide (e_type (snd src) = "bpmn:StartEvent")
          then Ok (Some sf) else findStartFlow rest
      end
  end.

Definition getStartFlowOfProcess (process : Element) : Outcome (option Node) :=
  match e_flowElements process with
  | None => Throw TypeError
  | Some flowElements =>
      match filterSequenceFlows flowElements with
      | Ok sfs => findStartFlow sfs
      | Throw x => Throw x
      | OutOfFuel => OutOfFuel
      end
  end.

(** The tail of [parseProcessFlowUntilElement]: both returns are
    one-element arrays. *)
Definition collapse (parsedProcess : list Tree) : list Tree :=
  if decide (length parsedProcess = 1) then parsedProcess
  else [JObj [("Flow", JArr parsedProcess)]].

(** [parsedFlowBranch.length === 1 ? parsedFlowBranch[0] : parsedFlowBranch] *)
Definition branchFragment (parsedFlowBranch : list Tree) : Tree :=
  if decide (length parsedFlowBranch = 1)
  then match parsedFlowBranch with x :: _ => x | [] => JArr [] end
  else JArr parsedFlowBranch.

(** The two pushes of one [forEach] iteration in
    [parseSplittedControlflow]. *)
Definition pushBranch (parsedFlowBranch : list Tree)
    (lastElement : option Node)
    (acc : list Tree * list Node) : list Tree * list Node :=
  (acc.1 ++ [branchFragment parsedFlowBranch],
   match lastElement with
   | Some l => acc.2 ++ [l]
   | None => acc.2
   end).

(** [lasts.every(e => e.id === lasts[0].id)] *)
Definition everySameId (lasts : list Node) : bool :=
  match lasts with
  | [] => true
  | l0 :: _ => forallb (λ l, bool_decide (e_id (snd l) = e_id (snd l0))) lasts
  end.

(** [gatewayElement.outgoing.forEach(...)], given the walk to run on
    every branch. *)
Fixpoint forEachBranch
    (walk : option addr → M (list Tree * option Node))
    (branches : list addr) (acc : list Tree * list Node)
    : M (list Tree * list Node) :=
  match branches with
  | [] => ret acc
  | b :: rest =>
      match h !! b with
      | None => throw TypeError
      | Some branch =>
          let* (parsedFlowBranch, lastElement) := walk (e_targetRef branch) in
          forEachBranch walk rest (pushBranch parsedFlowBranch lastElement acc)
      end
  end.

(** The four mutually recursive methods and the [while] loop.  Every call
    and every loop iteration spends one unit of [fuel]. *)
Fixpoint parseProcess (fuel : nat) (self : addr) (process : Element)
    : M (Tree * option Node) :=
  match fuel with
  | 0 => outOfFuel
  | S n =>
      let* startFlow := lift (getStartFlowOfProcess process) in
      match startFlow with
      | None => throw MalformedGraph
      | Some sf =>
          match deref h (e_targetRef (snd sf)) with
          | None => throw MalformedGraph
          | Some target =>
              let* (treePart, _) :=
                parseProcessFlowUntilElement n (Some (fst target)) "bpmn:EndEvent" in
              if hasOperation process
              then do addProcessNodeInfo process then
                   ret (objectWith (e_id process) (JArr treePart),
                        Some (self, process))
              else ret (objectWith "Process" (JArr treePart), Some (self, process))
          end
      end
  end
with parseProcessFlowUntilElement (fuel : nat) (startElement : option addr)
    (TerminationElementType : string) : M (list Tree * option Node) :=
  match fuel with
  | 0 => outOfFuel
  | S n =>
      let* (parsedProcess, nextElementInFlow) :=
        whileLoop n startElement TerminationElementType [] in
      ret (collapse parsedProcess, nextElementInFlow)
  end
with whileLoop (fuel : nat) (nextElementInFlow : option addr)
    (TerminationElementType : string) (parsedProcess : list Tree)
    : M (list Tree * option Node) :=
  match fuel with
  | 0 => outOfFuel
  | S n =>
      match deref h nextElementInFlow with
      | None => ret (parsedProcess, None)
      | Some cur =>
          if decide (e_type (snd cur) = TerminationElementType)
          then ret (parsedProcess, Some cur)
          else
            let* (treePart, lastElement) :=
              parseProcessSegment n (fst cur) (snd cur) in
            let parsedProcess' := parsedProcess ++ [treePart] in
            match lastElement with
            | Some le =>
                match e_outgoing (snd le) with
                | Some out =>
                    match deref h (out !! 0) with
                    | None => throw TypeError
                    | Some flow =>
                        whileLoop n (e_targetRef (snd flow))
                          TerminationElementType parsedProcess'
                    end
                | None => whileLoop n None TerminationElementType parsedProcess'
                end
            | None => whileLoop n None TerminationElementType parsedProcess'
            end
      end
  end
with parseProcessSegment (fuel : nat) (self : addr) (currentElement : Element)
    : M (Tree * option Node) :=
  match fuel with
  | 0 => outOfFuel
  | S n =>
      if decide (e_type currentElement = "bpmn:Task") then
        do addProcessNodeInfo currentElement then
        ret (JStr (e_id currentElement), Some (self, currentElement))
      else if decide (e_type currentElement = "bpmn:ParallelGateway"
                      ∨ e_type currentElement = "bpmn:ExclusiveGateway") then
        parseSplittedControlflow n self currentElement
      else if decide (e_type currentElement = "bpmn:SubProcess") then
        parseProcess n self currentElement
      else ret (JStr "", None)
  end
with parseSplittedControlflow (fuel : nat) (self : addr) (gatewayElement : Element)
    : M (Tree * option Node) :=
  match fuel with
  | 0 => outOfFuel
  | S n =>
      match e_outgoing gatewayElement with
      | None => throw TypeError
      | Some out =>
          let* (splittetControlflowBranches, lastElementsOfBranches) :=
            forEachBranch
              (λ target, parseProcessFlowUntilElement n target (e_type gatewayElement))
              out ([], []) in
          if everySameId lastElementsOfBranches then
            do addProcessNodeInfo gatewayElement then
            ret (objectWith (e_id gatewayElement) (JArr splittetControlflowBranches),
                 head lastElementsOfBranches)
          else throw InconsistentJoin
      end
  end.

(** [console.log] calls are not modelled.  [rootElements[0]] is taken to
    be the process; without one, reading [flowElements] throws.  The
    returned [nodeInfo] is the instance's table as it stands at the return. *)
Definition parseBpmnModdle (fuel : nat) (bpmnModdle : Definitions) : M ProcessTree :=
  match deref h (rootElements bpmnModdle !! 0) with
  | None => throw TypeError
  | Some process =>
      let* (parsedProcess, _) := parseProcess fuel (fst process) (snd process) in
      λ t, (Ok {| tree := parsedProcess; nodeInfo := t |}, t)
  end.

End Parser.

(** ** Vocabulary of the properties *)

(** The key under which [parseProcess] files the walked segment. *)
Definition rootKey (p : Element) : string :=
  if hasOperation p then e_id p else "Process".

(** The table entry of an operation-bearing element. *)
Definition infoOf (e : Element) : ProcessTreeNodeInfo :=
  {| label := labelOf e; concept := default "" (operationOf e) |}.

Definition recordAll (es : list Element)
    (t : gmap string ProcessTreeNodeInfo) : gmap string ProcessTreeNodeInfo :=
  foldl (λ t e, assign (e_id e) (infoOf e) t) t es.

(** A linear flow: from [r], the Tasks at [tasks] in this order, each with
    an operation and followed through its first outgoing flow, then an End
    event. *)
Fixpoint isLinearFlow (h : Heap) (r : option addr) (tasks : list addr) : bool :=
  match tasks with
  | [] =>
      match deref h r with
      | Some e => bool_decide (e_type e.2 = "bpmn:EndEvent")
      | None => false
      end
  | a :: rest =>
      bool_decide (r = Some a) &&
      match h !! a with
      | Some t =>
          bool_decide (e_type t = "bpmn:Task") && hasOperation t &&
          match e_outgoing t with
          | Some (f :: _) =>
              match h !! f with
              | Some fl => isLinearFlow h (e_targetRef fl) rest
              | None => false
              end
          | _ => false
          end
      | None => false
      end
  end.

Definition elementsAt (h : Heap) (l : list addr) : list Element :=
  omap (λ a, h !! a) l.

(** The tree of a linear segment, in the words of the specification: a
    single leaf for one Task, a Flow group of the ids otherwise. *)
Definition linearSegment (ids : list string) : Tree :=
  match ids with
  | [i] => JStr i
  | _ => JObj [("Flow", JArr (JStr <$> ids))]
  end.

(** What the walk along one outgoing flow of a split yields, whatever the
    table holds. *)
Definition branchWalk (h : Heap) (fuel : nat) (ty : string) (b : addr)
    : Outcome (list Tree * option Node) :=
  match h !! b with
  | Some branch => (parseProcessFlowUntilElement h fuel (e_targetRef branch) ty ∅).1
  | None => Throw TypeError
  end.

(** What the loop of the walk along one outgoing flow of a split returns
    before the collapsing rule is applied, whatever the table holds. *)
Definition branchLoop (h : Heap) (fuel : nat) (ty : string) (b : addr)
    : Outcome (list Tree * option Node) :=
  match h !! b with
  | Some branch => (whileLoop h fuel (e_targetRef branch) ty [] ∅).1
  | None => Throw TypeError
  end.

(** The collapsing rule in the words of the specification: the segment of
    an ordered list is its single element, or else a Flow group of the
    list. *)
Definition segmentOf (parsed : list Tree) : Tree :=
  match parsed with
  | [x] => x
  | _ => JObj [("Flow", JArr parsed)]
  end.

Definition isGateway (e : Element) : Prop :=
  e_type e = "bpmn:ParallelGateway" ∨ e_type e = "bpmn:ExclusiveGateway".




(** The nodes at which the branches of a split stopped. *)
Definition terminals (results : list (list Tree * option Node)) : list Node :=
  omap snd results.


(** The node the start flow leads to, if there is a start flow and it has a
    target. *)
Definition startTarget (h : Heap) (p : Element) : Outcome (option Node) :=
  match getStartFlowOfProcess h p with
  | Ok (Some sf) => Ok (deref h (e_targetRef sf.2))
  | Ok None => Ok None
  | Throw x => Throw x
  | OutOfFuel => OutOfFuel
  end.


(** What [parseProcess] makes of the outcome of its walk. *)
Definition finishProcess (self : addr) (process : Element)
    (walked : Outcome (list Tree * option Node) * gmap string ProcessTreeNodeInfo)
    : Outcome (Tree * option Node) * gmap string ProcessTreeNodeInfo :=
  match walked with
  | (Ok (treePart, _), t) =>
      (Ok (objectWith (rootKey process) (JArr treePart), Some (self, process)),
       if hasOperation process then assign (e_id process) (infoOf process) t
       else t)
  | (Throw x, t) => (Throw x, t)
  | (OutOfFuel, t) => (OutOfFuel, t)
  end.

(** A Flow group with exactly one child. *)
Definition singleChildFlow (kv : string * Tree) : bool :=
  bool_decide (kv.1 = "Flow") &&
  match kv.2 with JArr [_] => true | _ => false end.

Fixpoint wrapperFree (t : Tree) : bool :=
  match t with
  | JStr _ => true
  | JArr items => forallb wrapperFree items
  | JObj entries =>
      forallb (λ kv, let '(k, v) := kv in
                     wrapperFree v && negb (singleChildFlow (k, v))) entries
  end.

Definition freeTree (r : Tree * option Node) : Prop := wrapperFree r.1 = true.
Definition freeList (r : list Tree * option Node) : Prop :=
  forallb wrapperFree r.1 = true.
Definition freeBranches (r : list Tree * list Node) : Prop :=
  forallb wrapperFree r.1 = true.

(** The names a group can take from the graph: "Process", and the ids of
    the elements that carry an operation. *)
Definition groupNames (h : Heap) : list string :=
  "Process" :: omap (λ e, if hasOperation e then Some (e_id e) else None) h.

(** Every group of the tree that has exactly one child carries one of the
    names [ks]. *)
Fixpoint namedGroups (ks : list string) (t : Tree) : bool :=
  match t with
  | JStr _ => true
  | JArr items => forallb (namedGroups ks) items
  | JObj entries =>
      forallb (λ kv, let '(k, v) := kv in
                     namedGroups ks v &&
                     match v with
                     | JArr [_] => bool_decide (k ∈ ks)
                     | _ => true
                     end) entries
  end.

(** "Flow" is the key of sequential groups; no element uses it as its id. *)
Definition noFlowId (h : Heap) : bool :=
  forallb (λ e, bool_decide (e_id e ≠ "Flow")) h.

(** The addresses a walk may move to from an element: the targets of its
    outgoing flows and, for a process, of its own flow elements. *)
Definition successors (h : Heap) (e : Element) : list addr :=
  omap (λ f, h !! f ≫= e_targetRef)
       (default [] (e_outgoing e) ++ default [] (e_flowElements e)).

(** [rank] strictly decreases along every move: the graph has no cycle. *)
Definition ranked (h : Heap) (rank : addr → nat) : bool :=
  forallb (λ ae : addr * Element,
             forallb (λ b, bool_decide (rank b < rank ae.1)) (successors h ae.2))
          (imap pair h).

(** One more than the rank of the node [r] refers to; zero when [r] is
    undefined. *)
Definition rankOf (h : Heap) (rank : addr → nat) (r : option addr) : nat :=
  match deref h r with
  | Some n => S (rank n.1)
  | None => 0
  end.

Section TableVocabulary.
Variable h : Heap.

(** [i] is the entry some element of the graph with id [k] yields. *)
Definition recorded (k : string) (i : ProcessTreeNodeInfo) : Prop :=
  ∃ a e, h !! a = Some e ∧ e_id e = k ∧ getProcessNodeInfo e = Ok i.

(** From [t] to [t'] entries were only added or overwritten, by elements
    of the graph. *)
Definition extends (t t' : gmap string ProcessTreeNodeInfo) : Prop :=
  ∀ k, t' !! k = t !! k ∨ ∃ i, recorded k i ∧ t' !! k = Some i.

Definition keeps {A} (m : M A) : Prop := ∀ t, extends t (m t).2.
End TableVocabulary.

(** The outcome does not depend on the table. *)
Definition indep {A} (m : M A) : Prop := ∀ t1 t2, (m t1).1 = (m t2).1.

(** Whatever [m1] yields without running out of fuel, [m2] yields too. *)
Definition grows {A} (m1 m2 : M A) : Prop :=
  ∀ t, (m1 t).1 ≠ OutOfFuel → m2 t = m1 t.

Definition growsAll (h : Heap) (n m : nat) : Prop :=
  (∀ self p, grows (parseProcess h n self p) (parseProcess h m self p)) ∧
  (∀ s ty, grows (parseProcessFlowUntilElement h n s ty)
                 (parseProcessFlowUntilElement h m s ty)) ∧
  (∀ s ty acc, grows (whileLoop h n s ty acc) (whileLoop h m s ty acc)) ∧
  (∀ self e, grows (parseProcessSegment h n self e)
                   (parseProcessSegment h m self e)) ∧
  (∀ self e, grows (parseSplittedControlflow h n self e)
                   (parseSplittedControlflow h m self e)).

(** The result of a loop that started with [acc] already pushed. *)
Definition prepend (acc : list Tree)
    (r : Outcome (list Tree * option Node) * gmap string ProcessTreeNodeInfo)
    : Outcome (list Tree * option Node) * gmap string ProcessTreeNodeInfo :=
  match r with
  | (Ok (l, nx), t) => (Ok (acc ++ l, nx), t)
  | other => other
  end.

(** The kinds of node whose metadata the walk records unconditionally. *)
Definition recordedKind (e : Element) : Prop :=
  e_type e = "bpmn:Task" ∨ e_type e = "bpmn:ParallelGateway"
  ∨ e_type e = "bpmn:ExclusiveGateway".

(** When [m] raises MissingOperationBinding, a Task or gateway of the graph
    has no operation. *)
Definition blames (h : Heap) {A} (m : M A) : Prop :=
  ∀ t, (m t).1 = Throw MissingOperationBinding →
       ∃ a e, h !! a = Some e ∧ recordedKind e ∧ hasOperation e = false.


(** Every exception [m] raises satisfies [Q]. *)
Definition raises {A} (Q : Exn → Prop) (m : M A) : Prop :=
  ∀ t x, (m t).1 = Throw x → Q x.

(** The processes [parseProcess] is called on: the root, and the
    sub-processes of the graph. *)
Definition entered (h : Heap) (defs : Definitions) (a : addr) (p : Element)
    : Prop :=
  h !! a = Some p
  ∧ (rootElements defs !! 0 = Some a ∨ e_type p = "bpmn:SubProcess").

(** The exceptions of a conversion: a TypeError, or one of the three
    errors the parser throws itself, MalformedGraph only for a process
    that was entered and whose start flow or start target is missing. *)
Definition known (h : Heap) (defs : Definitions) (x : Exn) : Prop :=
  x = TypeError ∨ x = InconsistentJoin ∨ x = MissingOperationBinding
  ∨ (x = MalformedGraph
     ∧ ∃ a p, entered h defs a p ∧ startTarget h p = Ok None).

(** Whatever [m] returns satisfies [Q]. *)
Definition post {A} (Q : A → Prop) (m : M A) : Prop :=
  ∀ t a t', m t = (Ok a, t') → Q a.

(** [m] does not run out of fuel. *)
Definition terminates {A} (m : M A) : Prop := ∀ t, (m t).1 ≠ OutOfFuel.

(** A returned node, if any, is a node of the graph of rank below [k]. *)
Definition below (h : Heap) (rank : addr → nat) (k : nat) (o : option Node) : Prop :=
  ∀ nx, o = Some nx → h !! nx.1 = Some nx.2 ∧ rank nx.1 < k.

(** Fuel [4 * k + 1] suffices for a loop that starts below rank [k]. *)
Definition loopsEnd (h : Heap) (rank : addr → nat) (k : nat) : Prop :=
  ∀ n s ty acc, rankOf h rank s ≤ k → 4 * k + 1 ≤ n →
                terminates (whileLoop h n s ty acc).

(** [m] writes the same entries whatever the table holds, and yields the
    same outcome. *)
Definition writes {A} (m : M A) : Prop :=
  ∃ o (d : gmap string ProcessTreeNodeInfo), ∀ t, m t = (o, d ∪ t).

(** What a conversion yields besides the table: the tree, or the failure. *)
Definition treeOf (o : Outcome ProcessTree) : Outcome Tree :=
  match o with
  | Ok pt => Ok (tree pt)
  | Throw x => Throw x
  | OutOfFuel => OutOfFuel
  end.

(** A flow element the start-flow lookup passes over: it resolves and is
    no sequence flow, or is one whose source is not a Start event. *)
Definition passedOver (h : Heap) (a : addr) : bool :=
  match h !! a with
  | Some fe =>
      if decide (e_type fe = "bpmn:SequenceFlow") then
        match deref h (e_sourceRef fe) with
        | Some src => bool_decide (e_type src.2 ≠ "bpmn:StartEvent")
        | None => false
        end
      else true
  | None => false
  end.

Definition resolves (h : Heap) (a : addr) : bool :=
  match h !! a with Some _ => true | None => false end.

(** The kinds [parseProcessSegment] has a case for. *)
Definition supportedKind (ty : string) : bool :=
  bool_decide (ty = "bpmn:Task") || bool_decide (ty = "bpmn:ParallelGateway")
  || bool_decide (ty = "bpmn:ExclusiveGateway")
  || bool_decide (ty = "bpmn:SubProcess").

(** The shape of an item of a process tree: a string, or an object with
    one key whose value is an array of such items.  An object without any
    key is admitted only when [strict] is off. *)
Fixpoint shaped (strict : bool) (t : Tree) : bool :=
  match t with
  | JStr _ => true
  | JArr _ => false
  | JObj entries =>
      match entries with
      | [] => negb strict
      | [(_, JArr items)] => forallb (shaped strict) items
      | _ => false
      end
  end.

Definition isObject (t : Tree) : bool :=
  match t with JObj _ => true | _ => false end.

(** No element of the graph has the id [__proto__]. *)
Definition noProtoId (h : Heap) : bool :=
  forallb (λ e, bool_decide (e_id e ≠ "__proto__")) h.

(** Every string of a tree: its leaves and its keys. *)
Fixpoint names (t : Tree) : list string :=
  match t with
  | JStr s => [s]
  | JArr items => flat_map names items
  | JObj entries => flat_map (λ kv, let '(k, v) := kv in k :: names v) entries
  end.

(** Every name of the tree is a structural key, the empty leaf, the id
    [__proto__] (which can be a leaf but never a key of the table), or a
    key of the table. *)
Definition covered (t : gmap string ProcessTreeNodeInfo) (tr : Tree) : Prop :=
  ∀ k, In k (names tr) →
       k = "" ∨ k = "Flow" ∨ k = "Process" ∨ k = "__proto__"
       ∨ is_Some (t !! k).

(** The leaves of a tree, and the keys of its objects. *)
Fixpoint leaves (t : Tree) : list string :=
  match t with
  | JStr s => [s]
  | JArr items => flat_map leaves items
  | JObj entries => flat_map (λ kv, let '(_, v) := kv in leaves v) entries
  end.

Fixpoint keys (t : Tree) : list string :=
  match t with
  | JStr _ => []
  | JArr items => flat_map keys items
  | JObj entries => flat_map (λ kv, let '(k, v) := kv in k :: keys v) entries
  end.

(** Every leaf is empty or the id of a bound Task of the graph; every key
    is structural or the id of a bound element of the graph. *)
Definition sourced (h : Heap) (tr : Tree) : Prop :=
  (∀ s, In s (leaves tr) →
        s = "" ∨ ∃ a e, h !! a = Some e ∧ e_type e = "bpmn:Task"
                        ∧ e_id e = s ∧ hasOperation e = true)
  ∧ (∀ k, In k (keys tr) →
          k = "Flow" ∨ k = "Process"
          ∨ ∃ a e, h !! a = Some e ∧ e_id e = k ∧ hasOperation e = true).

(** ** Example graphs *)

Definition node (ty i : string) (op : option string) (out : option (list addr))
    : Element :=
  {| e_type := ty; e_id := i; e_name := None;
     e_attrs := Some (match op with
                      | Some o => {[ "rpa:operation" := o ]}
                      | None => ∅
                      end);
     e_outgoing := out; e_flowElements := None;
     e_sourceRef := None; e_targetRef := None |}.

Definition flow (i : string) (src tgt : addr) : Element :=
  {| e_type := "bpmn:SequenceFlow"; e_id := i; e_name := None;
     e_attrs := Some ∅; e_outgoing := None; e_flowElements := None;
     e_sourceRef := Some src; e_targetRef := Some tgt |}.

Definition container (ty i : string) (op : option string)
    (out : option (list addr)) (fes : list addr) : Element :=
  {| e_type := ty; e_id := i; e_name := None;
     e_attrs := Some (match op with
                      | Some o => {[ "rpa:operation" := o ]}
                      | None => ∅
                      end);
     e_outgoing := out; e_flowElements := Some fes;
     e_sourceRef := None; e_targetRef := None |}.

Definition firstRoot : Definitions := {| rootElements := [0] |}.

(** Start -> A -> End *)
Definition startAEnd : Heap :=
  [ container "bpmn:Process" "Process_1" None None [1; 2; 3; 4; 5];
    node "bpmn:StartEvent" "Start" None (Some [4]);
    node "bpmn:Task" "A" (Some "click") (Some [5]);
    node "bpmn:EndEvent" "End" None None;
    flow "f1" 1 2;
    flow "f2" 2 3 ].

(** Start -> A -> B -> End *)
Definition startABEnd : Heap :=
  [ container "bpmn:Process" "Process_1" None None [1; 2; 3; 4; 5; 6; 7];
    node "bpmn:StartEvent" "Start" None (Some [5]);
    node "bpmn:Task" "A" (Some "click") (Some [6]);
    node "bpmn:Task" "B" (Some "type") (Some [7]);
    node "bpmn:EndEvent" "End" None None;
    flow "f1" 1 2;
    flow "f2" 2 3;
    flow "f3" 3 4 ].

(** Start -> Split(P) -> {A, B} -> Join(J) -> End, both gateways parallel *)
Definition splitJoin : Heap :=
  [ container "bpmn:Process" "Process_1" None None
      [1; 2; 3; 4; 5; 6; 7; 8; 9; 10; 11; 12];
    node "bpmn:StartEvent" "Start" None (Some [7]);
    node "bpmn:ParallelGateway" "P" (Some "fork") (Some [8; 9]);
    node "bpmn:Task" "A" (Some "click") (Some [10]);
    node "bpmn:Task" "B" (Some "type") (Some [11]);
    node "bpmn:ParallelGateway" "J" None (Some [12]);
    node "bpmn:EndEvent" "End" None None;
    flow "f1" 1 2;
    flow "f2" 2 3;
    flow "f3" 2 4;
    flow "f4" 3 5;
    flow "f5" 4 5;
    flow "f6" 5 6 ].

(** Start -> Split(P) -> {A -> Join(J1), B -> Join(J2)}: the branches stop
    at different joins. *)
Definition twoJoins : Heap :=
  [ container "bpmn:Process" "Process_1" None None
      [1; 2; 3; 4; 5; 6; 7; 8; 9; 10; 11];
    node "bpmn:StartEvent" "Start" None (Some [7]);
    node "bpmn:ParallelGateway" "P" (Some "fork") (Some [8; 9]);
    node "bpmn:Task" "A" (Some "click") (Some [10]);
    node "bpmn:Task" "B" (Some "type") (Some [11]);
    node "bpmn:ParallelGateway" "J1" None None;
    node "bpmn:ParallelGateway" "J2" None None;
    flow "f1" 1 2;
    flow "f2" 2 3;
    flow "f3" 2 4;
    flow "f4" 3 5;
    flow "f5" 4 6 ].

(** Start -> A -> B -> End where B has no operation *)
Definition unboundB : Heap :=
  [ container "bpmn:Process" "Process_1" None None [1; 2; 3; 4; 5; 6; 7];
    node "bpmn:StartEvent" "Start" None (Some [5]);
    node "bpmn:Task" "A" (Some "click") (Some [6]);
    node "bpmn:Task" "B" None (Some [7]);
    node "bpmn:EndEvent" "End" None None;
    flow "f1" 1 2;
    flow "f2" 2 3;
    flow "f3" 3 4 ].


(** Start -> Sub[Start -> X -> End] -> B -> End *)
Definition withSubProcess : Heap :=
  [ container "bpmn:Process" "Process_1" None None [1; 2; 3; 4; 5; 6; 7];
    node "bpmn:StartEvent" "Start" None (Some [5]);
    container "bpmn:SubProcess" "Sub" (Some "login") (Some [6]) [8; 9; 10; 11; 12];
    node "bpmn:Task" "B" (Some "type") (Some [7]);
    node "bpmn:EndEvent" "End" None None;
    flow "f1" 1 2;
    flow "f2" 2 3;
    flow "f3" 3 4;
    node "bpmn:StartEvent" "SubStart" None (Some [11]);
    node "bpmn:Task" "X" (Some "click") (Some [12]);
    node "bpmn:EndEvent" "SubEnd" None None;
    flow "g1" 8 9;
    flow "g2" 9 10 ].

(** Start -> A, where A's list of outgoing flows is empty *)
Definition deadEndTask : Heap :=
  [ container "bpmn:Process" "Process_1" None None [1; 2; 3];
    node "bpmn:StartEvent" "Start" None (Some [3]);
    node "bpmn:Task" "A" (Some "click") (Some []);
    flow "f1" 1 2 ].

(** Start -> A -> A: the Task's outgoing flow leads back to it *)
Definition selfLoop : Heap :=
  [ container "bpmn:Process" "Process_1" None None [1; 2; 3; 4];
    node "bpmn:StartEvent" "Start" None (Some [3]);
    node "bpmn:Task" "A" (Some "click") (Some [4]);
    flow "f1" 1 2;
    flow "f2" 2 2 ].

(** Start -> Split(P) -> {A -> Join(J), B}: B has no outgoing list, so
    its branch ends without reaching the join. *)
Definition deadEndBranch : Heap :=
  [ container "bpmn:Process" "Process_1" None None [1; 2; 3; 4; 5; 6; 7; 8; 9];
    node "bpmn:StartEvent" "Start" None (Some [6]);
    node "bpmn:ParallelGateway" "P" (Some "fork") (Some [7; 8]);
    node "bpmn:Task" "A" (Some "click") (Some [9]);
    node "bpmn:Task" "B" (Some "type") None;
    node "bpmn:ParallelGateway" "J" None None;
    flow "f1" 1 2;
    flow "f2" 2 3;
    flow "f3" 2 4;
    flow "f4" 3 5 ].

(** Start -> A -> Timer -> B -> End, with an intermediate event between
    the Tasks. *)
Definition withEvent : Heap :=
  [ container "bpmn:Process" "Process_1" None None [1; 2; 3; 4; 5; 6; 7; 8; 9];
    node "bpmn:StartEvent" "Start" None (Some [6]);
    node "bpmn:Task" "A" (Some "click") (Some [7]);
    node "bpmn:IntermediateCatchEvent" "Timer" None (Some [8]);
    node "bpmn:Task" "B" (Some "type") (Some [9]);
    node "bpmn:EndEvent" "End" None None;
    flow "f1" 1 2;
    flow "f2" 2 3;
    flow "f3" 3 4;
    flow "f4" 4 5 ].

(** A process that lists a flow without source before its start flow. *)
Definition danglingFlow : Heap :=
  [ container "bpmn:Process" "Process_1" None None [1; 2; 3; 4; 5];
    node "bpmn:StartEvent" "Start" None (Some [5]);
    node "bpmn:Task" "A" (Some "click") None;
    node "bpmn:EndEvent" "End" None None;
    {| e_type := "bpmn:SequenceFlow"; e_id := "loose"; e_name := None;
       e_attrs := Some ∅; e_outgoing := None; e_flowElements := None;
       e_sourceRef := None; e_targetRef := Some 3 |};
    flow "f1" 1 2 ].

(** A process with two flows leaving its Start event, to A and to B. *)
Definition twoStarts : Heap :=
  [ container "bpmn:Process" "Process_1" None None [1; 2; 3; 4; 5; 6; 7];
    node "bpmn:StartEvent" "Start" None (Some [5; 6]);
    node "bpmn:Task" "A" (Some "click") (Some [7]);
    node "bpmn:Task" "B" (Some "type") None;
    node "bpmn:EndEvent" "End" None None;
    flow "s1" 1 2;
    flow "s2" 1 3;
    flow "f1" 2 4 ].

(** Start -> Split(G) -> {A -> J1, B -> J1, J2}: B has no operation, and
    the third branch leads to another join. *)
Definition failingBranch : Heap :=
  [ container "bpmn:Process" "Process_1" None None
      [1; 2; 3; 4; 5; 6; 7; 8; 9; 10; 11; 12];
    node "bpmn:StartEvent" "Start" None (Some [7]);
    node "bpmn:ParallelGateway" "G" (Some "fork") (Some [8; 9; 10]);
    node "bpmn:Task" "A" (Some "click") (Some [11]);
    node "bpmn:Task" "B" None (Some [12]);
    node "bpmn:ParallelGateway" "J1" None None;
    node "bpmn:ParallelGateway" "J2" None None;
    flow "f1" 1 2;
    flow "f2" 2 3;
    flow "f3" 2 4;
    flow "f4" 2 6;
    flow "f5" 3 5;
    flow "f6" 4 5 ].

(** Start -> A -> End in a process that carries an operation and whose id
    is [__proto__]. *)
Definition protoProcess : Heap :=
  [ container "bpmn:Process" "__proto__" (Some "run") None [1; 2; 3; 4; 5];
    node "bpmn:StartEvent" "Start" None (Some [4]);
    node "bpmn:Task" "A" (Some "click") (Some [5]);
    node "bpmn:EndEvent" "End" None None;
    flow "f1" 1 2;
    flow "f2" 2 3 ].

(** Start -> Sub[Start -> X -> End] -> B -> End where the sub-process
    carries an operation and has the id [__proto__]. *)
Definition protoSubProcess : Heap :=
  [ container "bpmn:Process" "Process_1" None None [1; 2; 3; 4; 5; 6; 7];
    node "bpmn:StartEvent" "Start" None (Some [5]);
    container "bpmn:SubProcess" "__proto__" (Some "login") (Some [6])
      [8; 9; 10; 11; 12];
    node "bpmn:Task" "B" (Some "type") (Some [7]);
    node "bpmn:EndEvent" "End" None None;
    flow "f1" 1 2;
    flow "f2" 2 3;
    flow "f3" 3 4;
    node "bpmn:StartEvent" "SubStart" None (Some [11]);
    node "bpmn:Task" "X" (Some "click") (Some [12]);
    node "bpmn:EndEvent" "SubEnd" None None;
    flow "g1" 8 9;
    flow "g2" 9 10 ].


(** Start -> Split(X) -> {A -> B, C} -> Join(Y) -> End, both gateways
    exclusive: the first branch holds two Tasks. *)
Definition twoTaskBranch : Heap :=
  [ container "bpmn:Process" "Process_1" None None
      [1; 2; 3; 4; 5; 6; 7; 8; 9; 10; 11; 12; 13; 14];
    node "bpmn:StartEvent" "Start" None (Some [8]);
    node "bpmn:ExclusiveGateway" "X" (Some "choose") (Some [9; 10]);
    node "bpmn:Task" "A" (Some "click") (Some [11]);
    node "bpmn:Task" "B" (Some "type") (Some [12]);
    node "bpmn:Task" "C" (Some "read") (Some [13]);
    node "bpmn:ExclusiveGateway" "Y" None (Some [14]);
    node "bpmn:EndEvent" "End" None None;
    flow "f1" 1 2;
    flow "f2" 2 3;
    flow "f3" 2 5;
    flow "f4" 3 4;
    flow "f5" 4 6;
    flow "f6" 5 6;
    flow "f7" 6 7 ].

(** Start -> Split(P) -> {A -> Join(J1), B -> Join(J2)} as in [twoJoins],
    but P carries no operation. *)
Definition unboundSplit : Heap :=
  [ container "bpmn:Process" "Process_1" None None
      [1; 2; 3; 4; 5; 6; 7; 8; 9; 10; 11];
    node "bpmn:StartEvent" "Start" None (Some [7]);
    node "bpmn:ParallelGateway" "P" None (Some [8; 9]);
    node "bpmn:Task" "A" (Some "click") (Some [10]);
    node "bpmn:Task" "B" (Some "type") (Some [11]);
    node "bpmn:ParallelGateway" "J1" None None;
    node "bpmn:ParallelGateway" "J2" None None;
    flow "f1" 1 2;
    flow "f2" 2 3;
    flow "f3" 2 4;
    flow "f4" 3 5;
    flow "f5" 4 6 ].




(** * Properties *)

(** ** The monad and the heap *)

Lemma deref_Some h r a e : deref h r = Some (a, e) → r = Some a ∧ h !! a = Some e.
Proof.
  destruct r as [b|]; simpl; [|done].
  destruct (h !! b) eqn:E; [|done]. intros [= <- <-]. done.
Qed.

Lemma deref_lookup h a e : h !! a = Some e → deref h (Some a) = Some (a, e).
Proof. intros E. simpl. by rewrite E. Qed.

Lemma bind_Ok {A B} (m : M A) (k : A → M B) t r t' :
  bind m k t = (Ok r, t') → ∃ a t1, m t = (Ok a, t1) ∧ k a t1 = (Ok r, t').
Proof.
  unfold bind. destruct (m t) as [[a| |] t1]; [eauto|done..].
Qed.

Lemma bind_eq_Ok {A B} (m : M A) (k : A → M B) t a t1 :
  m t = (Ok a, t1) → bind m k t = k a t1.
Proof. unfold bind. by intros ->. Qed.


Lemma hasOperation_info e :
  hasOperation e = true → getProcessNodeInfo e = Ok (infoOf e).
Proof.
  unfold hasOperation, getProcessNodeInfo, infoOf.
  by destruct (operationOf e).
Qed.

Lemma hasOperation_missing e :
  hasOperation e = false → getProcessNodeInfo e = Throw MissingOperationBinding.
Proof.
  unfold hasOperation, getProcessNodeInfo. by destruct (operationOf e).
Qed.

Lemma assign_key {V} k (v : V) t :
  k ≠ "__proto__" → assign k v t = <[k := v]> t.
Proof. intros Hk. unfold assign. by rewrite decide_False. Qed.

Lemma assign_proto {V} (v : V) t : assign "__proto__" v t = t.
Proof. done. Qed.


Lemma assign_lookup {V} k (v : V) t k' :
  assign k v t !! k' = t !! k' ∨ (k = k' ∧ assign k v t !! k' = Some v).
Proof.
  unfold assign. case_decide; [by left|].
  destruct (decide (k = k')) as [<-|Hne].
  - right. split; [done|]. apply lookup_insert_eq.
  - left. by apply lookup_insert_ne.
Qed.

Lemma assign_grows {V} k (v : V) t k' :
  is_Some (t !! k') → is_Some (assign k v t !! k').
Proof.
  intros Hk'. destruct (assign_lookup k v t k') as [->|[_ ->]]; eauto.
Qed.

Lemma assign_union k (v : ProcessTreeNodeInfo) t :
  assign k v t = assign k v ∅ ∪ t.
Proof.
  unfold assign. case_decide.
  - by rewrite (left_id_L ∅ (∪)).
  - by rewrite insert_union_singleton_l, insert_empty.
Qed.

Lemma addProcessNodeInfo_Ok e t :
  hasOperation e = true →
  addProcessNodeInfo e t = (Ok (), assign (e_id e) (infoOf e) t).
Proof. intros H. unfold addProcessNodeInfo. by rewrite hasOperation_info. Qed.

Lemma addProcessNodeInfo_Throw e t :
  hasOperation e = false →
  addProcessNodeInfo e t = (Throw MissingOperationBinding, t).
Proof. intros H. unfold addProcessNodeInfo. by rewrite hasOperation_missing. Qed.

Lemma collapse_length l : length (collapse l) = 1.
Proof. unfold collapse. by case_decide. Qed.

(** ** The table only grows *)

Section TableGrowth.
Variable h : Heap.

Lemma extends_refl t : extends h t t.
Proof. intros k. by left. Qed.

Lemma extends_trans t1 t2 t3 :
  extends h t1 t2 → extends h t2 t3 → extends h t1 t3.
Proof.
  intros H12 H23 k. destruct (H23 k) as [E|(i & Hr & E)].
  - rewrite E. apply H12.
  - right. eauto.
Qed.

Lemma extends_is_Some t t' k :
  extends h t t' → is_Some (t !! k) → is_Some (t' !! k).
Proof.
  intros H Hk. destruct (H k) as [E|(i & _ & E)]; rewrite E; eauto.
Qed.

Lemma keeps_ret {A} (a : A) : keeps h (ret a).
Proof. intros t. apply extends_refl. Qed.

Lemma keeps_throw {A} x : keeps h (@throw A x).
Proof. intros t. apply extends_refl. Qed.

Lemma keeps_outOfFuel {A} : keeps h (@outOfFuel A).
Proof. intros t. apply extends_refl. Qed.

Lemma keeps_lift {A} (o : Outcome A) : keeps h (lift o).
Proof. intros t. apply extends_refl. Qed.

Lemma keeps_bind {A B} (m : M A) (k : A → M B) :
  keeps h m → (∀ a, keeps h (k a)) → keeps h (bind m k).
Proof.
  intros Hm Hk t. unfold bind. specialize (Hm t).
  destruct (m t) as [[a| |] t']; simpl in *; [|done..].
  eapply extends_trans; [exact Hm|apply Hk].
Qed.

Lemma keeps_add a e : h !! a = Some e → keeps h (addProcessNodeInfo e).
Proof.
  intros Ha t. unfold addProcessNodeInfo.
  destruct (getProcessNodeInfo e) as [i| |] eqn:E; simpl; try apply extends_refl.
  intros k. destruct (assign_lookup (e_id e) i t k) as [E'|[Hk E']].
  - by left.
  - right. exists i. split; [by exists a, e|done].
Qed.

Lemma keeps_forEachBranch walk bs acc :
  (∀ target, keeps h (walk target)) → keeps h (forEachBranch h walk bs acc).
Proof.
  intros Hw. revert acc. induction bs as [|b bs IH]; intros acc; simpl.
  - apply keeps_ret.
  - destruct (h !! b); [|apply keeps_throw].
    apply keeps_bind; [apply Hw|]. intros [p l]. apply IH.
Qed.

Ltac keeps_step :=
  first [ apply keeps_ret | apply keeps_throw | apply keeps_outOfFuel
        | apply keeps_lift | apply keeps_forEachBranch
        | apply keeps_bind
        | eapply keeps_add; eassumption
        | progress intros
        | match goal with
          | x : (_ * _)%type |- _ => destruct x
          | x : Node |- _ => destruct x
          | H : deref _ _ = Some _ |- _ => apply deref_Some in H; destruct H
          end
        | case_match ].

Lemma keeps_all n :
  (∀ self p, h !! self = Some p → keeps h (parseProcess h n self p)) ∧
  (∀ s ty, keeps h (parseProcessFlowUntilElement h n s ty)) ∧
  (∀ s ty acc, keeps h (whileLoop h n s ty acc)) ∧
  (∀ self e, h !! self = Some e → keeps h (parseProcessSegment h n self e)) ∧
  (∀ self e, h !! self = Some e → keeps h (parseSplittedControlflow h n self e)).
Proof.
  induction n as [|n (IHp & IHf & IHw & IHs & IHg)].
  - repeat split; intros; apply keeps_outOfFuel.
  - repeat split; intros; simpl; repeat keeps_step; eauto.
Qed.

Lemma keeps_parseBpmnModdle n defs t :
  extends h t (parseBpmnModdle h n defs t).2.
Proof.
  unfold parseBpmnModdle.
  destruct (deref h (rootElements defs !! 0)) as [[a p]|] eqn:E;
    [|apply extends_refl].
  apply deref_Some in E as [_ E].
  revert t. apply keeps_bind; [by apply keeps_all|].
  intros [tr l] t. apply extends_refl.
Qed.
End TableGrowth.

(** ** The outcome does not depend on the table *)

Section TableIndependence.
Variable h : Heap.

Lemma indep_ret {A} (a : A) : indep (ret a).
Proof. done. Qed.

Lemma indep_throw {A} x : indep (@throw A x).
Proof. done. Qed.

Lemma indep_outOfFuel {A} : indep (@outOfFuel A).
Proof. done. Qed.

Lemma indep_lift {A} (o : Outcome A) : indep (lift o).
Proof. done. Qed.

Lemma indep_bind {A B} (m : M A) (k : A → M B) :
  indep m → (∀ a, indep (k a)) → indep (bind m k).
Proof.
  intros Hm Hk t1 t2. unfold bind. specialize (Hm t1 t2).
  destruct (m t1) as [[a1| |] t1'], (m t2) as [[a2| |] t2'];
    simpl in *; try done; injection Hm as ->; [apply Hk|done].
Qed.

Lemma indep_add e : indep (addProcessNodeInfo e).
Proof.
  intros t1 t2. unfold addProcessNodeInfo.
  by destruct (getProcessNodeInfo e).
Qed.

Lemma indep_forEachBranch walk bs acc :
  (∀ target, indep (walk target)) → indep (forEachBranch h walk bs acc).
Proof.
  intros Hw. revert acc. induction bs as [|b bs IH]; intros acc; simpl.
  - apply indep_ret.
  - destruct (h !! b); [|apply indep_throw].
    apply indep_bind; [apply Hw|]. intros [p l]. apply IH.
Qed.

Ltac indep_step :=
  first [ apply indep_ret | apply indep_throw | apply indep_outOfFuel
        | apply indep_lift | apply indep_forEachBranch | apply indep_add
        | apply indep_bind
        | progress intros
        | match goal with
          | x : (_ * _)%type |- _ => destruct x
          | x : Node |- _ => destruct x
          end
        | case_match ].

Lemma indep_all n :
  (∀ self p, indep (parseProcess h n self p)) ∧
  (∀ s ty, indep (parseProcessFlowUntilElement h n s ty)) ∧
  (∀ s ty acc, indep (whileLoop h n s ty acc)) ∧
  (∀ self e, indep (parseProcessSegment h n self e)) ∧
  (∀ self e, indep (parseSplittedControlflow h n self e)).
Proof.
  induction n as [|n (IHp & IHf & IHw & IHs & IHg)].
  - repeat split; intros; apply indep_outOfFuel.
  - repeat split; intros; simpl; repeat indep_step; eauto.
Qed.

Lemma walk_indep n s ty t :
  (parseProcessFlowUntilElement h n s ty t).1
  = (parseProcessFlowUntilElement h n s ty ∅).1.
Proof. apply indep_all. Qed.
End TableIndependence.

(** ** Fuel is only a bound *)

Section Fuel.
Variable h : Heap.

Lemma grows_refl {A} (m : M A) : grows m m.
Proof. by intros t _. Qed.

Lemma grows_trans {A} (m1 m2 m3 : M A) :
  grows m1 m2 → grows m2 m3 → grows m1 m3.
Proof.
  intros H12 H23 t Ht. rewrite H23; rewrite H12; done.
Qed.

Lemma grows_outOfFuel {A} (m : M A) : grows outOfFuel m.
Proof. by intros t Ht. Qed.

Lemma grows_bind {A B} (m1 m2 : M A) (k1 k2 : A → M B) :
  grows m1 m2 → (∀ a, grows (k1 a) (k2 a)) → grows (bind m1 k1) (bind m2 k2).
Proof.
  intros Hm Hk t. unfold bind. intros Ht.
  destruct (m1 t) as [[a| |] t'] eqn:E; rewrite Hm; rewrite E; try done.
  by apply Hk.
Qed.

Lemma grows_forEachBranch walk1 walk2 bs acc :
  (∀ target, grows (walk1 target) (walk2 target)) →
  grows (forEachBranch h walk1 bs acc) (forEachBranch h walk2 bs acc).
Proof.
  intros Hw. revert acc. induction bs as [|b bs IH]; intros acc; simpl.
  - apply grows_refl.
  - destruct (h !! b); [|apply grows_refl].
    apply grows_bind; [apply Hw|]. intros [p l]. apply IH.
Qed.

Ltac grows_step :=
  first [ apply grows_outOfFuel | apply grows_forEachBranch
        | apply grows_bind
        | progress intros
        | match goal with
          | x : (_ * _)%type |- _ => destruct x
          | x : Node |- _ => destruct x
          | H : ∀ _, _ |- grows (?f h _ _ _) _ => apply H
          | H : ∀ _, _ |- grows (?f h _ _ _ _) _ => apply H
          end
        | case_match
        | apply grows_refl ].

Lemma growsAll_S n m : growsAll h n m → growsAll h (S n) (S m).
Proof.
  intros (IHp & IHf & IHw & IHs & IHg).
  repeat split; intros; simpl; repeat grows_step.
Qed.

Lemma grows_S n : growsAll h n (S n).
Proof.
  induction n as [|n IH].
  - repeat split; intros; apply grows_outOfFuel.
  - by apply growsAll_S.
Qed.

Lemma grows_le n m :
  n ≤ m →
  (∀ self p, grows (parseProcess h n self p) (parseProcess h m self p)) ∧
  (∀ s ty, grows (parseProcessFlowUntilElement h n s ty)
                 (parseProcessFlowUntilElement h m s ty)) ∧
  (∀ s ty acc, grows (whileLoop h n s ty acc) (whileLoop h m s ty acc)).
Proof.
  induction 1 as [|m Hle (IHp & IHf & IHw)].
  - repeat split; intros; apply grows_refl.
  - destruct (grows_S m) as (Hp & Hf & Hw & _).
    repeat split; intros; eapply grows_trans; eauto.
Qed.

Lemma parseBpmnModdle_fuel n m defs t :
  n ≤ m → (parseBpmnModdle h n defs t).1 ≠ OutOfFuel →
  parseBpmnModdle h m defs t = parseBpmnModdle h n defs t.
Proof.
  intros Hle. unfold parseBpmnModdle.
  destruct (deref h (rootElements defs !! 0)) as [[a p]|]; [|done].
  revert t. apply grows_bind; [by apply grows_le|].
  intros [tr l]. apply grows_refl.
Qed.
End Fuel.

(** ** One iteration of the walk *)

Section Walk.
Variable h : Heap.

Lemma whileLoop_undefined n s ty acc t :
  deref h s = None → whileLoop h (S n) s ty acc t = (Ok (acc, None), t).
Proof. intros E. simpl. by rewrite E. Qed.

Lemma whileLoop_termination n s ty acc t cur :
  deref h s = Some cur → e_type cur.2 = ty →
  whileLoop h (S n) s ty acc t = (Ok (acc, Some cur), t).
Proof. intros E Hty. simpl. rewrite E. by rewrite decide_True. Qed.

Lemma whileLoop_advance n s ty acc t cur frag le t1 out fl :
  deref h s = Some cur → e_type cur.2 ≠ ty →
  parseProcessSegment h n cur.1 cur.2 t = (Ok (frag, Some le), t1) →
  e_outgoing le.2 = Some out → deref h (out !! 0) = Some fl →
  whileLoop h (S n) s ty acc t
  = whileLoop h n (e_targetRef fl.2) ty (acc ++ [frag]) t1.
Proof.
  intros E Hty Hseg Hout Hfl. simpl. rewrite E.
  rewrite decide_False by done.
  erewrite bind_eq_Ok by exact Hseg. simpl. by rewrite Hout, Hfl.
Qed.

Lemma whileLoop_no_outgoing n s ty acc t cur frag le t1 :
  deref h s = Some cur → e_type cur.2 ≠ ty →
  parseProcessSegment h n cur.1 cur.2 t = (Ok (frag, Some le), t1) →
  e_outgoing le.2 = None →
  whileLoop h (S n) s ty acc t = whileLoop h n None ty (acc ++ [frag]) t1.
Proof.
  intros E Hty Hseg Hout. simpl. rewrite E.
  rewrite decide_False by done.
  erewrite bind_eq_Ok by exact Hseg. simpl. by rewrite Hout.
Qed.

Lemma whileLoop_no_last n s ty acc t cur frag t1 :
  deref h s = Some cur → e_type cur.2 ≠ ty →
  parseProcessSegment h n cur.1 cur.2 t = (Ok (frag, None), t1) →
  whileLoop h (S n) s ty acc t = whileLoop h n None ty (acc ++ [frag]) t1.
Proof.
  intros E Hty Hseg. simpl. rewrite E.
  rewrite decide_False by done.
  by erewrite bind_eq_Ok by exact Hseg.
Qed.

Lemma whileLoop_first_flow_undefined n s ty acc t cur frag le t1 out :
  deref h s = Some cur → e_type cur.2 ≠ ty →
  parseProcessSegment h n cur.1 cur.2 t = (Ok (frag, Some le), t1) →
  e_outgoing le.2 = Some out → deref h (out !! 0) = None →
  whileLoop h (S n) s ty acc t = (Throw TypeError, t1).
Proof.
  intros E Hty Hseg Hout Hfl. simpl. rewrite E.
  rewrite decide_False by done.
  erewrite bind_eq_Ok by exact Hseg. simpl. by rewrite Hout, Hfl.
Qed.


Lemma segment_Task n self e t :
  e_type e = "bpmn:Task" →
  parseProcessSegment h (S n) self e t
  = match addProcessNodeInfo e t with
    | (Ok _, t1) => (Ok (JStr (e_id e), Some (self, e)), t1)
    | (Throw x, t1) => (Throw x, t1)
    | (OutOfFuel, t1) => (OutOfFuel, t1)
    end.
Proof.
  intros Hty. simpl. rewrite decide_True by done. unfold bind.
  by destruct (addProcessNodeInfo e t) as [[[]| |] t1].
Qed.

Lemma segment_SubProcess n self e :
  e_type e = "bpmn:SubProcess" →
  parseProcessSegment h (S n) self e = parseProcess h n self e.
Proof.
  intros Hty. simpl. rewrite decide_False by (rewrite Hty; done).
  rewrite decide_False by (rewrite Hty; intros [|]; done).
  by rewrite decide_True.
Qed.

Lemma segment_gateway n self e :
  e_type e = "bpmn:ParallelGateway" ∨ e_type e = "bpmn:ExclusiveGateway" →
  parseProcessSegment h (S n) self e = parseSplittedControlflow h n self e.
Proof.
  intros Hty. simpl.
  rewrite decide_False by (destruct Hty as [-> | ->]; done).
  by rewrite decide_True.
Qed.

Lemma walk_S n s ty t :
  parseProcessFlowUntilElement h (S n) s ty t
  = match whileLoop h n s ty [] t with
    | (Ok (parsed, nx), t1) => (Ok (collapse parsed, nx), t1)
    | (Throw x, t1) => (Throw x, t1)
    | (OutOfFuel, t1) => (OutOfFuel, t1)
    end.
Proof.
  simpl. unfold bind.
  by destruct (whileLoop h n s ty [] t) as [[[parsed nx]| |] t1].
Qed.

Lemma parseProcess_start n self p t :
  parseProcess h (S n) self p t
  = match startTarget h p with
    | Ok None => (Throw MalformedGraph, t)
    | Ok (Some target) =>
        finishProcess self p
          (parseProcessFlowUntilElement h n (Some target.1) "bpmn:EndEvent" t)
    | Throw x => (Throw x, t)
    | OutOfFuel => (OutOfFuel, t)
    end.
Proof.
  simpl. unfold startTarget, bind at 1, lift.
  destruct (getStartFlowOfProcess h p) as [[sf|]| |]; try done.
  destruct (deref h (e_targetRef sf.2)) as [target|]; [|done].
  unfold bind at 1, finishProcess, rootKey.
  destruct (parseProcessFlowUntilElement h n (Some target.1) "bpmn:EndEvent" t)
    as [[[treePart last]| |] t1]; try done.
  destruct (hasOperation p) eqn:Hop; [|done].
  unfold bind. by rewrite addProcessNodeInfo_Ok.
Qed.

(** Pushing onto a list that already holds [acc] only prefixes the
    result with [acc]. *)
Lemma whileLoop_acc n : ∀ s ty acc t,
  whileLoop h n s ty acc t = prepend acc (whileLoop h n s ty [] t).
Proof.
  induction n as [|n IH]; intros s ty acc t; [done|].
  simpl. destruct (deref h s) as [cur|]; simpl;
    [|by rewrite app_nil_r].
  case_decide; simpl; [by rewrite app_nil_r|].
  unfold bind.
  destruct (parseProcessSegment h n cur.1 cur.2 t) as [[[frag last]| |] t1];
    [|done..].
  assert (∀ s', whileLoop h n s' ty (acc ++ [frag]) t1
                = prepend acc (whileLoop h n s' ty [frag] t1)) as Hrec.
  { intros s'. rewrite (IH s' ty (acc ++ [frag])), (IH s' ty [frag]).
    destruct (whileLoop h n s' ty [] t1) as [[[l nx]| |] t2]; simpl; [|done..].
    by rewrite <- app_assoc. }
  destruct last as [le|]; [|apply Hrec].
  destruct (e_outgoing le.2) as [out|]; [|apply Hrec].
  destruct (deref h (out !! 0)); [apply Hrec|done].
Qed.
End Walk.

(** ** Linear processes *)

Section Linear.
Variable h : Heap.

Lemma isLinearFlow_deref r tasks :
  isLinearFlow h r tasks = true → is_Some (deref h r).
Proof.
  destruct tasks as [|a rest]; simpl.
  - destruct (deref h r); [eauto|done].
  - intros H. apply andb_prop in H as [Hr H].
    apply bool_decide_eq_true in Hr as ->. simpl.
    destruct (h !! a); [eauto|done].
Qed.

Lemma linear_loop tasks : ∀ r acc t n,
  isLinearFlow h r tasks = true → length tasks < n →
  ∃ stop,
    whileLoop h n r "bpmn:EndEvent" acc t
    = (Ok (acc ++ (JStr <$> (e_id <$> elementsAt h tasks)), Some stop),
       recordAll (elementsAt h tasks) t).
Proof.
  induction tasks as [|a rest IH]; intros r acc t n Hlin Hn.
  - destruct n as [|n]; [lia|]. simpl in Hlin.
    destruct (deref h r) as [stop|] eqn:E; [|done].
    apply bool_decide_eq_true in Hlin. exists stop.
    rewrite (whileLoop_termination h n r _ acc t stop E Hlin).
    by rewrite app_nil_r.
  - simpl in Hn. destruct n as [|[|n]]; [lia..|].
    simpl in Hlin. apply andb_prop in Hlin as [Hr Hlin].
    apply bool_decide_eq_true in Hr as ->.
    destruct (h !! a) as [tk|] eqn:Ea; [|done].
    apply andb_prop in Hlin as [Hlin Hrest].
    apply andb_prop in Hlin as [Hty Hop].
    apply bool_decide_eq_true in Hty.
    destruct (e_outgoing tk) as [[|f out]|] eqn:Eout; [done| |done].
    destruct (h !! f) as [fl|] eqn:Ef; [|done].
    destruct (IH (e_targetRef fl) (acc ++ [JStr (e_id tk)])
                (assign (e_id tk) (infoOf tk) t) (S n) Hrest) as [stop Hstop];
      [lia|].
    exists stop.
    rewrite (whileLoop_advance h (S n) (Some a) _ acc t (a, tk)
               (JStr (e_id tk)) (a, tk) (assign (e_id tk) (infoOf tk) t)
               (f :: out) (f, fl)).
    + cbn [fst snd]. rewrite Hstop. unfold elementsAt. simpl. rewrite Ea. simpl.
      by rewrite <- app_assoc.
    + by apply deref_lookup.
    + simpl. by rewrite Hty.
    + cbn [fst snd]. rewrite (segment_Task h n a tk t Hty).
      by rewrite addProcessNodeInfo_Ok.
    + done.
    + simpl. by rewrite Ef.
Qed.


Lemma collapse_linear ids : collapse (JStr <$> ids) = [linearSegment ids].
Proof.
  unfold collapse. rewrite length_fmap.
  destruct ids as [|i [|j ids]]; simpl; try done.
Qed.

Lemma linear_parseProcess self p sf tasks t n :
  getStartFlowOfProcess h p = Ok (Some sf) →
  isLinearFlow h (e_targetRef sf.2) tasks = true →
  length tasks + 3 ≤ n →
  parseProcess h n self p t
  = (Ok (objectWith (rootKey p)
           (JArr [linearSegment (e_id <$> elementsAt h tasks)]),
         Some (self, p)),
     (if hasOperation p then assign (e_id p) (infoOf p) else id)
       (recordAll (elementsAt h tasks) t)).
Proof.
  intros Hsf Hlin Hn. destruct n as [|[|n]]; [lia..|].
  destruct (isLinearFlow_deref _ _ Hlin) as [[a e] Ht].
  destruct (deref_Some _ _ _ _ Ht) as [Hta _].
  destruct (linear_loop tasks (e_targetRef sf.2) [] t n Hlin) as [stop Hloop];
    [lia|].
  rewrite parseProcess_start. unfold startTarget. rewrite Hsf, Ht. cbn [fst].
  rewrite <- Hta, walk_S, Hloop. cbn [app]. rewrite collapse_linear.
  unfold finishProcess. by destruct (hasOperation p).
Qed.

Lemma linear_process defs pa p sf tasks t fuel :
  rootElements defs !! 0 = Some pa → h !! pa = Some p →
  getStartFlowOfProcess h p = Ok (Some sf) →
  isLinearFlow h (e_targetRef sf.2) tasks = true →
  length tasks + 3 ≤ fuel →
  let t' := (if hasOperation p then assign (e_id p) (infoOf p) else id)
              (recordAll (elementsAt h tasks) t) in
  parseBpmnModdle h fuel defs t
  = (Ok {| tree := objectWith (rootKey p)
                     (JArr [linearSegment (e_id <$> elementsAt h tasks)]);
           nodeInfo := t' |}, t').
Proof.
  intros Hroot Hp Hsf Hlin Hfuel t'.
  unfold parseBpmnModdle. rewrite Hroot, (deref_lookup h pa p Hp).
  cbn [fst snd]. unfold bind.
  by rewrite (linear_parseProcess pa p sf tasks t fuel Hsf Hlin Hfuel).
Qed.
End Linear.

(** C1. A linear process Start -> Task* -> End whose Tasks all carry an
    operation converts to an object built by assigning, under the root key
    (the id of an operation-bearing process, "Process" otherwise), the
    one-element array of the walked segment: the single Task id when there
    is exactly one Task, a Flow group of the Task ids in visiting order
    otherwise; the table is assigned one entry per Task (and one for the
    process when it carries an operation).  So Start -> A -> End with A
    bound to "click" gives the tree {"Process": ["A"]} and the table
    {"A": {label: "A", concept: "click"}}.  The assignment goes to a plain
    object, though: for an operation-bearing process whose id is
    [__proto__] it creates no key, and the same Start -> A -> End converts
    to the empty object, a root that maps to nothing. *)
Theorem linear_process_tree :
  (∀ h defs pa p sf tasks t fuel,
     rootElements defs !! 0 = Some pa → h !! pa = Some p →
     getStartFlowOfProcess h p = Ok (Some sf) →
     isLinearFlow h (e_targetRef sf.2) tasks = true →
     length tasks + 3 ≤ fuel →
     let t' := (if hasOperation p then assign (e_id p) (infoOf p) else id)
                 (recordAll (elementsAt h tasks) t) in
     parseBpmnModdle h fuel defs t
     = (Ok {| tree := objectWith (rootKey p)
                        (JArr [linearSegment (e_id <$> elementsAt h tasks)]);
              nodeInfo := t' |}, t'))
  ∧ (∀ fuel,
       parseBpmnModdle startAEnd (4 + fuel) firstRoot ∅
       = (Ok {| tree := JObj [("Process", JArr [JStr "A"])];
                nodeInfo := {[ "A" := {| label := "A"; concept := "click" |} ]} |},
          {[ "A" := {| label := "A"; concept := "click" |} ]}))
  ∧ (∀ fuel,
       parseBpmnModdle protoProcess (4 + fuel) firstRoot ∅
       = (Ok {| tree := JObj [];
                nodeInfo := {[ "A" := {| label := "A"; concept := "click" |} ]} |},
          {[ "A" := {| label := "A"; concept := "click" |} ]})).
Proof.
  split; [exact linear_process|]. split.
  - intros fuel.
    exact (linear_process startAEnd firstRoot 0
             (container "bpmn:Process" "Process_1" None None [1; 2; 3; 4; 5])
             (4, flow "f1" 1 2) [2] ∅ (4 + fuel)
             eq_refl eq_refl eq_refl eq_refl ltac:(simpl; lia)).
  - intros fuel.
    exact (linear_process protoProcess firstRoot 0
             (container "bpmn:Process" "__proto__" (Some "run") None
                [1; 2; 3; 4; 5])
             (4, flow "f1" 1 2) [2] ∅ (4 + fuel)
             eq_refl eq_refl eq_refl eq_refl ltac:(simpl; lia)).
Qed.

Lemma linear_process_tree_witness :
  parseBpmnModdle startABEnd 5 firstRoot ∅
  = (Ok {| tree := JObj [("Process",
                          JArr [JObj [("Flow", JArr [JStr "A"; JStr "B"])]])];
           nodeInfo := {[ "A" := {| label := "A"; concept := "click" |};
                          "B" := {| label := "B"; concept := "type" |} ]} |},
     {[ "A" := {| label := "A"; concept := "click" |};
        "B" := {| label := "B"; concept := "type" |} ]}).
Proof.
  exact (proj1 linear_process_tree startABEnd firstRoot 0
           (container "bpmn:Process" "Process_1" None None [1; 2; 3; 4; 5; 6; 7])
           (5, flow "f1" 1 2) [2; 3] ∅ 5
           eq_refl eq_refl eq_refl eq_refl ltac:(simpl; lia)).
Defined.

(** ** Splits *)

Section Split.
Variable h : Heap.

Lemma everySameId_spec lasts :
  everySameId lasts = true ↔
  ∀ x y, x ∈ lasts → y ∈ lasts → e_id x.2 = e_id y.2.
Proof.
  destruct lasts as [|l0 lasts]; simpl.
  { split; [|done]. intros _ x y Hx. by apply elem_of_nil in Hx. }
  rewrite andb_true_iff, bool_decide_eq_true, forallb_forall.
  split.
  - intros [_ Hall] x y Hx Hy.
    assert (∀ z, z ∈ l0 :: lasts → e_id z.2 = e_id l0.2) as Hz.
    { intros z Hin. apply elem_of_cons in Hin as [->|Hin]; [done|].
      apply list_elem_of_In, Hall in Hin. by apply bool_decide_eq_true in Hin. }
    by rewrite (Hz x), (Hz y).
  - intros Hall. split; [done|]. intros z Hin.
    apply bool_decide_eq_true, Hall; [|by left].
    right. by apply list_elem_of_In.
Qed.

Lemma foldl_pushBranch results : ∀ acc,
  foldl (λ acc r, pushBranch r.1 r.2 acc) acc results
  = (acc.1 ++ (branchFragment ∘ fst <$> results), acc.2 ++ terminals results).
Proof.
  induction results as [|[l last] results IH]; intros [frs lasts]; simpl.
  - by rewrite !app_nil_r.
  - rewrite IH. unfold pushBranch, terminals. simpl.
    rewrite <- app_assoc. f_equal.
    destruct last; simpl; [|done]. by rewrite <- app_assoc.
Qed.

(** When every branch walk succeeds, [forEach] pushes their results in
    the order of the outgoing flows. *)
Lemma forEachBranch_results n ty out : ∀ results acc t,
  branchWalk h n ty <$> out = Ok <$> results →
  ∃ t', forEachBranch h
          (λ target, parseProcessFlowUntilElement h n target ty) out acc t
        = (Ok (foldl (λ acc r, pushBranch r.1 r.2 acc) acc results), t').
Proof.
  induction out as [|b out IH]; intros results acc t Hres.
  - destruct results; [|done]. by exists t.
  - destruct results as [|[l last] results]; [done|].
    injection Hres as Hb Hres. unfold branchWalk in Hb.
    simpl. destruct (h !! b) as [branch|]; [|done].
    rewrite <- (walk_indep h n _ ty t) in Hb.
    destruct (parseProcessFlowUntilElement h n (e_targetRef branch) ty t)
      as [o t1] eqn:E.
    simpl in Hb. subst o.
    erewrite bind_eq_Ok by exact E.
    apply (IH results (pushBranch l last acc) t1 Hres).
Qed.

Lemma splitted_results n self gw out results t :
  e_outgoing gw = Some out →
  branchWalk h n (e_type gw) <$> out = Ok <$> results →
  (parseSplittedControlflow h (S n) self gw t).1
  = if everySameId (terminals results)
    then match getProcessNodeInfo gw with
         | Ok _ => Ok (objectWith (e_id gw)
                         (JArr (branchFragment ∘ fst <$> results)),
                       head (terminals results))
         | Throw x => Throw x
         | OutOfFuel => OutOfFuel
         end
    else Throw InconsistentJoin.
Proof.
  intros Hout Hres. simpl. rewrite Hout.
  destruct (forEachBranch_results n (e_type gw) out results ([], []) t Hres)
    as [t' Hfor].
  erewrite bind_eq_Ok by exact Hfor.
  rewrite foldl_pushBranch. simpl.
  destruct (everySameId (terminals results)); [|done].
  unfold bind, addProcessNodeInfo.
  by destruct (getProcessNodeInfo gw).
Qed.

(** A walk that stops at a node stops at one of the termination kind. *)
Lemma whileLoop_stop n : ∀ s ty acc t l nx t',
  whileLoop h n s ty acc t = (Ok (l, Some nx), t') →
  e_type nx.2 = ty ∧ h !! nx.1 = Some nx.2.
Proof.
  induction n as [|n IH]; intros s ty acc t l nx t'; [done|].
  simpl. destruct (deref h s) as [[a e]|] eqn:E; [|done].
  case_decide as Hty.
  { intros [= _ <- _]. by apply deref_Some in E as [_ E]. }
  intros Hb. apply bind_Ok in Hb as ([frag last] & t1 & _ & Hk).
  destruct last as [le|]; [|by eapply IH].
  destruct (e_outgoing le.2) as [outs|]; [|by eapply IH].
  destruct (deref h (outs !! 0)); [by eapply IH|done].
Qed.

Lemma walk_stop n s ty t l nx t' :
  parseProcessFlowUntilElement h n s ty t = (Ok (l, Some nx), t') →
  e_type nx.2 = ty ∧ h !! nx.1 = Some nx.2.
Proof.
  destruct n as [|n]; [done|]. simpl. intros Hb.
  apply bind_Ok in Hb as ([parsed nx'] & t1 & Hw & Hk).
  injection Hk as _ -> _. by eapply whileLoop_stop.
Qed.
End Split.





(** The walk that meets a split appends what the split returns as one
    item of its list and goes on from the first outgoing flow of the node
    the split hands back. *)
Lemma split_pushed h n s ty acc t self gw frag join t1 outj fl :
  deref h s = Some (self, gw) → isGateway gw → e_type gw ≠ ty →
  parseSplittedControlflow h (S n) self gw t = (Ok (frag, Some join), t1) →
  e_outgoing join.2 = Some outj → deref h (outj !! 0) = Some fl →
  whileLoop h (S (S (S n))) s ty acc t
  = whileLoop h (S (S n)) (e_targetRef fl.2) ty (acc ++ [frag]) t1.
Proof.
  intros Hs Hgw Hty Hsplit Hout Hfl.
  apply (whileLoop_advance h (S (S n)) s ty acc t (self, gw) frag join t1 outj fl);
    try done.
  cbn [fst snd]. by rewrite segment_gateway.
Qed.






(** C4. When the branch walks of a split all return and two of them stop
    at nodes with different ids, the split fails with InconsistentJoin and
    yields no tree; whenever the split yields a tree, all the nodes its
    branches stopped at carry the same id. *)
Theorem inconsistent_join h n self gw out results t :
  e_outgoing gw = Some out →
  branchWalk h n (e_type gw) <$> out = Ok <$> results →
  (∀ i j li lj,
     terminals results !! i = Some li → terminals results !! j = Some lj →
     e_id li.2 ≠ e_id lj.2 →
     (parseSplittedControlflow h (S n) self gw t).1 = Throw InconsistentJoin)
  ∧ (∀ r, (parseSplittedControlflow h (S n) self gw t).1 = Ok r →
          ∀ li lj, li ∈ terminals results → lj ∈ terminals results →
                   e_id li.2 = e_id lj.2).
Proof.
  intros Hout Hres.
  rewrite (splitted_results h n self gw out results t Hout Hres).
  destruct (everySameId (terminals results)) eqn:Hsame.
  - pose proof (proj1 (everySameId_spec _) Hsame) as Hall. split.
    + intros i j li lj Hi Hj Hne. destruct Hne.
      apply Hall; eapply list_elem_of_lookup_2; eauto.
    + intros _ _. exact Hall.
  - split; [done|]. intros r Hr. done.
Qed.

Lemma inconsistent_join_witness :
  (parseSplittedControlflow twoJoins 4 2
     (node "bpmn:ParallelGateway" "P" (Some "fork") (Some [8; 9])) ∅).1
  = Throw InconsistentJoin.
Proof.
  refine (proj1 (inconsistent_join twoJoins 3 2
            (node "bpmn:ParallelGateway" "P" (Some "fork") (Some [8; 9]))
            [8; 9]
            [([JStr "A"], Some (5, node "bpmn:ParallelGateway" "J1" None None));
             ([JStr "B"], Some (6, node "bpmn:ParallelGateway" "J2" None None))]
            ∅ eq_refl eq_refl)
          0 1 _ _ eq_refl eq_refl _).
  vm_compute. discriminate.
Defined.

(** ** The start flow *)

Section StartFlow.
Variable h : Heap.



Lemma getStartFlowOfProcess_throws p x :
  getStartFlowOfProcess h p = Throw x → x = TypeError.
Proof.
  assert (∀ fes y, filterSequenceFlows h fes = Throw y → y = TypeError)
    as Hfilter.
  { induction fes as [|a fes IH]; intros y; simpl; [done|].
    destruct (h !! a); [|by intros [= <-]].
    destruct (filterSequenceFlows h fes); [by case_decide| |done].
    intros [= <-]. by apply IH. }
  assert (∀ sfs y, findStartFlow h sfs = Throw y → y = TypeError) as Hfind.
  { induction sfs as [|sf sfs IH]; intros y; simpl; [done|].
    destruct (deref h (e_sourceRef sf.2)); [|by intros [= <-]].
    case_decide; [done|apply IH]. }
  unfold getStartFlowOfProcess.
  destruct (e_flowElements p) as [fes|]; [|by intros [= <-]].
  destruct (filterSequenceFlows h fes) as [sfs|y|] eqn:Ef; [apply Hfind| |done].
  intros [= <-]. by eapply Hfilter.
Qed.





End StartFlow.

(** ** The exceptions of a conversion *)

Section Raises.
Variable h : Heap.
Variable defs : Definitions.

Lemma raises_ret {A} Q (a : A) : raises Q (ret a).
Proof. by intros t x. Qed.

Lemma raises_outOfFuel {A} Q : raises Q (@outOfFuel A).
Proof. by intros t x. Qed.

Lemma raises_throw {A} (Q : Exn → Prop) x : Q x → raises Q (@throw A x).
Proof. intros Hx t y [= <-]. done. Qed.

Lemma raises_bind {A B} Q (m : M A) (k : A → M B) :
  raises Q m → (∀ a, raises Q (k a)) → raises Q (bind m k).
Proof.
  intros Hm Hk t x. unfold bind. specialize (Hm t).
  destruct (m t) as [[a| |] t1]; simpl in *; [apply Hk| |done].
  intros [= <-]. by apply Hm.
Qed.

Lemma raises_add e : raises (known h defs) (addProcessNodeInfo e).
Proof.
  intros t x. unfold addProcessNodeInfo, getProcessNodeInfo.
  destruct (operationOf e); [done|]. intros [= <-]. right. right. by left.
Qed.

Lemma raises_start p : raises (known h defs) (lift (getStartFlowOfProcess h p)).
Proof.
  intros t x. unfold lift. simpl. intros Hx.
  apply getStartFlowOfProcess_throws in Hx as ->. by left.
Qed.

Lemma raises_forEachBranch walk bs acc :
  (∀ target, raises (known h defs) (walk target)) →
  raises (known h defs) (forEachBranch h walk bs acc).
Proof.
  intros Hw. revert acc. induction bs as [|b bs IH]; intros acc; simpl.
  - apply raises_ret.
  - destruct (h !! b); [|apply raises_throw; by left].
    apply raises_bind; [apply Hw|]. intros [l last]. apply IH.
Qed.

(** Every exception of a method is a known one. *)
Lemma raises_all n :
  (∀ self p, entered h defs self p →
             raises (known h defs) (parseProcess h n self p)) ∧
  (∀ s ty, raises (known h defs) (parseProcessFlowUntilElement h n s ty)) ∧
  (∀ s ty acc, raises (known h defs) (whileLoop h n s ty acc)) ∧
  (∀ self e, h !! self = Some e →
             raises (known h defs) (parseProcessSegment h n self e)) ∧
  (∀ self e, raises (known h defs) (parseSplittedControlflow h n self e)).
Proof.
  induction n as [|n (IHp & IHf & IHw & IHs & IHg)].
  { split; [|split; [|split; [|split]]]; intros; apply raises_outOfFuel. }
  split; [|split; [|split; [|split]]].
  - intros self p Hent t x. rewrite parseProcess_start.
    destruct (startTarget h p) as [[target|]|y|] eqn:Est; [| | |done].
    + intros Hx. apply (IHf (Some target.1) "bpmn:EndEvent" t x).
      unfold finishProcess in Hx.
      destruct (parseProcessFlowUntilElement h n (Some target.1)
                  "bpmn:EndEvent" t) as [[[treePart last]| |] t1];
        simpl in *; try done.
      by injection Hx as ->.
    + intros [= <-]. do 3 right. split; [done|]. by exists self, p.
    + intros [= <-]. unfold startTarget in Est.
      destruct (getStartFlowOfProcess h p) as [[sf|]|z|] eqn:Eg; try done.
      injection Est as <-. apply getStartFlowOfProcess_throws in Eg as ->.
      by left.
  - intros s ty. simpl. apply raises_bind; [apply IHw|].
    intros [parsed nx]. apply raises_ret.
  - intros s ty acc. simpl.
    destruct (deref h s) as [[a e]|] eqn:E; [|apply raises_ret].
    apply deref_Some in E as [_ E].
    case_decide; [apply raises_ret|].
    apply raises_bind; [by apply IHs|].
    intros [frag [le|]]; [|apply IHw].
    destruct (e_outgoing le.2) as [out|]; [|apply IHw].
    destruct (deref h (out !! 0)); [apply IHw|apply raises_throw; by left].
  - intros self e He. simpl.
    case_decide.
    { apply raises_bind; [apply raises_add|]. intros _. apply raises_ret. }
    case_decide; [apply IHg|].
    case_decide; [|apply raises_ret].
    apply IHp. split; [done|by right].
  - intros self e. simpl.
    destruct (e_outgoing e); [|apply raises_throw; by left].
    apply raises_bind; [by apply raises_forEachBranch|].
    intros [frs lasts].
    destruct (everySameId lasts); [|apply raises_throw; right; by left].
    apply raises_bind; [apply raises_add|]. intros _. apply raises_ret.
Qed.

Lemma parseBpmnModdle_raises fuel t x :
  (parseBpmnModdle h fuel defs t).1 = Throw x → known h defs x.
Proof.
  unfold parseBpmnModdle.
  destruct (deref h (rootElements defs !! 0)) as [[a p]|] eqn:E;
    [|intros [= <-]; by left].
  destruct (deref_Some _ _ _ _ E) as [Hroot Hp].
  revert t x. apply raises_bind.
  - apply raises_all. split; [done|by left].
  - intros [tr last]. by intros t x.
Qed.
End Raises.




(** ** Operation bindings *)

Lemma getProcessNodeInfo_Ok e i :
  getProcessNodeInfo e = Ok i → hasOperation e = true ∧ i = infoOf e.
Proof.
  unfold getProcessNodeInfo, hasOperation, infoOf.
  destruct (operationOf e); [|done]. by intros [= <-].
Qed.

Section Blame.
Variable h : Heap.

Lemma blames_ret {A} (a : A) : blames h (ret a).
Proof. by intros t. Qed.

Lemma blames_outOfFuel {A} : blames h (@outOfFuel A).
Proof. by intros t. Qed.

Lemma blames_TypeError {A} : blames h (@throw A TypeError).
Proof. by intros t. Qed.

Lemma blames_MalformedGraph {A} : blames h (@throw A MalformedGraph).
Proof. by intros t. Qed.

Lemma blames_InconsistentJoin {A} : blames h (@throw A InconsistentJoin).
Proof. by intros t. Qed.

Lemma blames_bind {A B} (m : M A) (k : A → M B) :
  blames h m → (∀ a, blames h (k a)) → blames h (bind m k).
Proof.
  intros Hm Hk t. unfold bind. specialize (Hm t).
  destruct (m t) as [[a| |] t1]; simpl in *; [apply Hk| |done].
  intros [= ->]. by apply Hm.
Qed.

Lemma blames_add a e :
  h !! a = Some e → recordedKind e → blames h (addProcessNodeInfo e).
Proof.
  intros Ha Hkind t. unfold addProcessNodeInfo.
  destruct (getProcessNodeInfo e) as [i| |] eqn:E; [done| |done].
  intros _. exists a, e. repeat split; [done..|].
  unfold getProcessNodeInfo in E. unfold hasOperation.
  by destruct (operationOf e).
Qed.

Lemma blames_add_bound e :
  hasOperation e = true → blames h (addProcessNodeInfo e).
Proof. intros Hop t. by rewrite addProcessNodeInfo_Ok. Qed.

Lemma blames_start p : blames h (lift (getStartFlowOfProcess h p)).
Proof.
  intros t. unfold lift. simpl. intros Hx.
  by apply getStartFlowOfProcess_throws in Hx.
Qed.

Lemma blames_forEachBranch walk bs acc :
  (∀ target, blames h (walk target)) → blames h (forEachBranch h walk bs acc).
Proof.
  intros Hw. revert acc. induction bs as [|b bs IH]; intros acc; simpl.
  - apply blames_ret.
  - destruct (h !! b); [|apply blames_TypeError].
    apply blames_bind; [apply Hw|]. intros [l last]. apply IH.
Qed.

(** A conversion that fails for a missing binding met an unbound Task or
    gateway. *)
Lemma blames_all n :
  (∀ self p, blames h (parseProcess h n self p)) ∧
  (∀ s ty, blames h (parseProcessFlowUntilElement h n s ty)) ∧
  (∀ s ty acc, blames h (whileLoop h n s ty acc)) ∧
  (∀ self e, h !! self = Some e → blames h (parseProcessSegment h n self e)) ∧
  (∀ self e, h !! self = Some e → recordedKind e →
             blames h (parseSplittedControlflow h n self e)).
Proof.
  induction n as [|n (IHp & IHf & IHw & IHs & IHg)].
  { repeat split; intros; apply blames_outOfFuel. }
  split; [|split; [|split; [|split]]].
  - intros self p. simpl. apply blames_bind; [apply blames_start|].
    intros [sf|]; [|apply blames_MalformedGraph].
    destruct (deref h (e_targetRef sf.2)); [|apply blames_MalformedGraph].
    apply blames_bind; [apply IHf|]. intros [treePart last].
    destruct (hasOperation p) eqn:Hop; [|apply blames_ret].
    apply blames_bind; [by apply blames_add_bound|]. intros _. apply blames_ret.
  - intros s ty. simpl. apply blames_bind; [apply IHw|].
    intros [parsed nx]. apply blames_ret.
  - intros s ty acc. simpl.
    destruct (deref h s) as [[a e]|] eqn:E; [|apply blames_ret].
    apply deref_Some in E as [_ E].
    case_decide; [apply blames_ret|].
    apply blames_bind; [by apply IHs|].
    intros [frag [le|]]; [|apply IHw].
    destruct (e_outgoing le.2) as [out|]; [|apply IHw].
    destruct (deref h (out !! 0)); [apply IHw|apply blames_TypeError].
  - intros self e He. simpl.
    case_decide as Htask.
    { apply blames_bind; [apply (blames_add self); [done|by left]|].
      intros _. apply blames_ret. }
    case_decide as Hgw; [apply IHg; [done|by right]|].
    case_decide; [apply IHp|apply blames_ret].
  - intros self e He Hkind. simpl.
    destruct (e_outgoing e); [|apply blames_TypeError].
    apply blames_bind; [by apply blames_forEachBranch|].
    intros [frs lasts].
    destruct (everySameId lasts); [|apply blames_InconsistentJoin].
    apply blames_bind; [by apply (blames_add self)|]. intros _. apply blames_ret.
Qed.
End Blame.

(** C3, as stated, fails for gateways.  In [splitJoin] the parallel
    gateway J closes the block opened by P and carries no operation; the
    split hands J back and the walk steps over it, so the conversion
    succeeds, with no entry for J.  And in [unboundSplit] the split P
    carries no operation, yet the conversion does not fail with
    MissingOperationBinding: the join check comes before the split is
    recorded, and it fails with InconsistentJoin. *)
Lemma unbound_gateways_pass :
  (splitJoin !! 5 = Some (node "bpmn:ParallelGateway" "J" None (Some [12]))
   ∧ isGateway (node "bpmn:ParallelGateway" "J" None (Some [12]))
   ∧ hasOperation (node "bpmn:ParallelGateway" "J" None (Some [12])) = false
   ∧ (parseSplittedControlflow splitJoin 4 2
        (node "bpmn:ParallelGateway" "P" (Some "fork") (Some [8; 9])) ∅).1
     = Ok (JObj [("P", JArr [JStr "A"; JStr "B"])],
           Some (5, node "bpmn:ParallelGateway" "J" None (Some [12])))
   ∧ ∀ fuel,
       parseBpmnModdle splitJoin (8 + fuel) firstRoot ∅
       = (Ok {| tree := JObj [("Process",
                               JArr [JObj [("P", JArr [JStr "A"; JStr "B"])]])];
                nodeInfo := {[ "A" := {| label := "A"; concept := "click" |};
                               "B" := {| label := "B"; concept := "type" |};
                               "P" := {| label := "P"; concept := "fork" |} ]} |},
          {[ "A" := {| label := "A"; concept := "click" |};
             "B" := {| label := "B"; concept := "type" |};
             "P" := {| label := "P"; concept := "fork" |} ]}))
  ∧ (unboundSplit !! 2 = Some (node "bpmn:ParallelGateway" "P" None (Some [8; 9]))
     ∧ hasOperation (node "bpmn:ParallelGateway" "P" None (Some [8; 9])) = false
     ∧ ∀ fuel,
         (parseBpmnModdle unboundSplit (8 + fuel) firstRoot ∅).1
         = Throw InconsistentJoin).
Proof.
  split.
  - split; [done|]. split; [by left|]. split; [done|]. split; [done|].
    intros fuel.
    rewrite (parseBpmnModdle_fuel splitJoin 8 (8 + fuel)); [|lia|done].
    vm_compute. reflexivity.
  - split; [done|]. split; [done|].
    intros fuel.
    rewrite (parseBpmnModdle_fuel unboundSplit 8 (8 + fuel)); [done|lia|done].
Qed.

(** C3, amended.  Recording a node's metadata fails with
    MissingOperationBinding exactly when the node lacks an operation
    attribute, and then leaves the table as it was; otherwise it assigns
    the node's entry under its id.  The walk records every Task, every
    gateway it parses as a split - after the branches have been walked and
    found to stop at one node - and every (sub)process that carries an
    operation: a Task fails the conversion exactly when it has no
    operation, and so does such a split; a (sub)process is recorded only
    when it carries an operation and never raises the error itself.  Every
    entry a conversion adds to the table comes from an element of the
    graph that carries an operation, and a conversion that fails with
    MissingOperationBinding met a Task or gateway without one.  The node a
    split hands back, its join, is not recorded: the walk goes on from the
    join's first outgoing flow with the table as the split left it,
    whether or not the join carries an operation. *)
Theorem missing_operation_binding :
  (∀ e t, (addProcessNodeInfo e t).1 = Throw MissingOperationBinding
          ↔ hasOperation e = false)
  ∧ (∀ e t, hasOperation e = false →
            addProcessNodeInfo e t = (Throw MissingOperationBinding, t))
  ∧ (∀ e t, hasOperation e = true →
            addProcessNodeInfo e t = (Ok (), assign (e_id e) (infoOf e) t))
  ∧ (∀ h n self e t, e_type e = "bpmn:Task" →
       ((parseProcessSegment h (S n) self e t).1 = Throw MissingOperationBinding
        ↔ hasOperation e = false))
  ∧ (∀ h n self gw out results t,
       e_outgoing gw = Some out →
       branchWalk h n (e_type gw) <$> out = Ok <$> results →
       everySameId (terminals results) = true →
       ((parseSplittedControlflow h (S n) self gw t).1 = Throw MissingOperationBinding
        ↔ hasOperation gw = false))
  ∧ (∀ h n self p t target treePart last t1,
       startTarget h p = Ok (Some target) →
       parseProcessFlowUntilElement h n (Some target.1) "bpmn:EndEvent" t
       = (Ok (treePart, last), t1) →
       parseProcess h (S n) self p t
       = (Ok (objectWith (rootKey p) (JArr treePart), Some (self, p)),
          if hasOperation p then assign (e_id p) (infoOf p) t1 else t1))
  ∧ (∀ h fuel defs t k i,
       (parseBpmnModdle h fuel defs t).2 !! k = Some i →
       t !! k = Some i
       ∨ ∃ a e, h !! a = Some e ∧ e_id e = k ∧ hasOperation e = true ∧ i = infoOf e)
  ∧ (∀ h fuel defs t,
       (parseBpmnModdle h fuel defs t).1 = Throw MissingOperationBinding →
       ∃ a e, h !! a = Some e ∧ recordedKind e ∧ hasOperation e = false)
  ∧ (∀ h n s ty acc t self gw frag join t1 out fl,
       deref h s = Some (self, gw) → isGateway gw → e_type gw ≠ ty →
       parseSplittedControlflow h (S n) self gw t = (Ok (frag, Some join), t1) →
       e_outgoing join.2 = Some out → deref h (out !! 0) = Some fl →
       whileLoop h (S (S (S n))) s ty acc t
       = whileLoop h (S (S n)) (e_targetRef fl.2) ty (acc ++ [frag]) t1).
Proof.
  split; [|split; [|split; [|split; [|split; [|split; [|split; [|split]]]]]]].
  - intros e t. destruct (hasOperation e) eqn:Hop.
    + by rewrite addProcessNodeInfo_Ok.
    + by rewrite addProcessNodeInfo_Throw.
  - apply addProcessNodeInfo_Throw.
  - apply addProcessNodeInfo_Ok.
  - intros h n self e t Hty. rewrite segment_Task by done.
    destruct (hasOperation e) eqn:Hop.
    + by rewrite addProcessNodeInfo_Ok.
    + by rewrite addProcessNodeInfo_Throw.
  - intros h n self gw out results t Hout Hres Hsame.
    rewrite (splitted_results h n self gw out results t Hout Hres), Hsame.
    destruct (hasOperation gw) eqn:Hop.
    + by rewrite hasOperation_info.
    + by rewrite hasOperation_missing.
  - intros h n self p t target treePart last t1 Hst Hwalk.
    by rewrite parseProcess_start, Hst, Hwalk.
  - intros h fuel defs t k i Hk.
    destruct (keeps_parseBpmnModdle h fuel defs t k) as [E|(i' & Hrec & E)].
    + left. by rewrite <- E.
    + right. rewrite Hk in E. injection E as <-.
      destruct Hrec as (a & e & Ha & Hid & Hinfo).
      apply getProcessNodeInfo_Ok in Hinfo as [Hop ->]. eauto 6.
  - intros h fuel defs t. unfold parseBpmnModdle.
    destruct (deref h (rootElements defs !! 0)) as [[a p]|]; [|done].
    revert t. apply blames_bind; [apply blames_all|]. by intros [tr last] t.
  - intros h n s ty acc t self gw frag join t1 out fl.
    apply split_pushed.
Qed.

Lemma missing_operation_binding_witness :
  (parseProcessSegment unboundB 1 3 (node "bpmn:Task" "B" None (Some [7])) ∅).1
  = Throw MissingOperationBinding
  ∧ ((parseSplittedControlflow splitJoin 4 2
        (node "bpmn:ParallelGateway" "P" (Some "fork") (Some [8; 9])) ∅).1
     = Throw MissingOperationBinding
     ↔ hasOperation (node "bpmn:ParallelGateway" "P" (Some "fork") (Some [8; 9]))
       = false)
  ∧ (∃ a e, unboundB !! a = Some e ∧ recordedKind e ∧ hasOperation e = false)
  ∧ whileLoop splitJoin 6 (Some 2) "bpmn:EndEvent" [] ∅
    = whileLoop splitJoin 5 (Some 6) "bpmn:EndEvent"
        [JObj [("P", JArr [JStr "A"; JStr "B"])]]
        {[ "A" := {| label := "A"; concept := "click" |};
           "B" := {| label := "B"; concept := "type" |};
           "P" := {| label := "P"; concept := "fork" |} ]}.
Proof.
  split; [|split; [|split]].
  - exact (proj2 (proj1 (proj2 (proj2 (proj2 missing_operation_binding)))
                    unboundB 0 3 (node "bpmn:Task" "B" None (Some [7])) ∅ eq_refl)
                 eq_refl).
  - exact (proj1 (proj2 (proj2 (proj2 (proj2 missing_operation_binding))))
             splitJoin 3 2
             (node "bpmn:ParallelGateway" "P" (Some "fork") (Some [8; 9]))
             [8; 9]
             [([JStr "A"], Some (5, node "bpmn:ParallelGateway" "J" None (Some [12])));
              ([JStr "B"], Some (5, node "bpmn:ParallelGateway" "J" None (Some [12])))]
             ∅ eq_refl eq_refl eq_refl).
  - exact (proj1 (proj2 (proj2 (proj2 (proj2 (proj2 (proj2 (proj2
             missing_operation_binding)))))))
             unboundB 5 firstRoot ∅ eq_refl).
  - exact (proj2 (proj2 (proj2 (proj2 (proj2 (proj2 (proj2 (proj2
             missing_operation_binding)))))))
             splitJoin 3 (Some 2) "bpmn:EndEvent" [] ∅ 2
             (node "bpmn:ParallelGateway" "P" (Some "fork") (Some [8; 9]))
             (JObj [("P", JArr [JStr "A"; JStr "B"])])
             (5, node "bpmn:ParallelGateway" "J" None (Some [12]))
             {[ "A" := {| label := "A"; concept := "click" |};
                "B" := {| label := "B"; concept := "type" |};
                "P" := {| label := "P"; concept := "fork" |} ]}
             [12] (12, flow "f6" 5 6)
             eq_refl (or_introl eq_refl) ltac:(discriminate) eq_refl
             eq_refl eq_refl).
Defined.

(** ** Sub-processes *)

Lemma parseProcess_returns h n self p t target treePart last t1 :
  startTarget h p = Ok (Some target) →
  parseProcessFlowUntilElement h n (Some target.1) "bpmn:EndEvent" t
  = (Ok (treePart, last), t1) →
  parseProcess h (S n) self p t
  = (Ok (objectWith (rootKey p) (JArr treePart), Some (self, p)),
     if hasOperation p then assign (e_id p) (infoOf p) t1 else t1).
Proof. intros Hst Hwalk. by rewrite parseProcess_start, Hst, Hwalk. Qed.

Lemma parseProcess_own h n self p t r t' :
  parseProcess h n self p t = (Ok r, t') →
  r.2 = Some (self, p) ∧ ∃ inner, r.1 = objectWith (rootKey p) (JArr inner).
Proof.
  destruct n as [|n]; [done|].
  rewrite parseProcess_start.
  destruct (startTarget h p) as [[target|]| |]; try done.
  unfold finishProcess.
  destruct (parseProcessFlowUntilElement h n (Some target.1) "bpmn:EndEvent" t)
    as [[[treePart last]| |] t1]; try done.
  intros [= <- _]. eauto.
Qed.

(** C6. [parseProcess] returns as soon as the walk of its inner flow
    returns, and then hands back the process's own node, never a node of
    the inner flow, together with the object in which the walked segment
    was assigned under the process's id, when the process carries an
    operation, and under "Process" otherwise.  A walk that meets a
    SubProcess therefore continues from the SubProcess's first outgoing
    flow, and what follows is pushed after the sub-process's tree in the
    same list, as its sibling.  Because the assignment goes to a plain
    object, a sub-process that carries an operation and whose id is
    [__proto__] is not keyed by its id: its tree is the empty object and
    its inner segment is lost. *)
Theorem subprocess_resumes_parent :
  (∀ h n self p t target treePart last t1,
     startTarget h p = Ok (Some target) →
     parseProcessFlowUntilElement h n (Some target.1) "bpmn:EndEvent" t
     = (Ok (treePart, last), t1) →
     parseProcess h (S n) self p t
     = (Ok (objectWith (rootKey p) (JArr treePart), Some (self, p)),
        if hasOperation p then assign (e_id p) (infoOf p) t1 else t1))
  ∧ (∀ h n self p sf tasks t,
       getStartFlowOfProcess h p = Ok (Some sf) →
       isLinearFlow h (e_targetRef sf.2) tasks = true →
       length tasks + 3 ≤ n →
       (parseProcess h n self p t).1
       = Ok (objectWith (rootKey p)
               (JArr [linearSegment (e_id <$> elementsAt h tasks)]),
             Some (self, p)))
  ∧ (∀ h n self p t r t',
       parseProcess h n self p t = (Ok r, t') →
       r.2 = Some (self, p) ∧ ∃ inner, r.1 = objectWith (rootKey p) (JArr inner))
  ∧ (∀ h n s ty acc t self sp target inner last t1 out fl,
       deref h s = Some (self, sp) →
       e_type sp = "bpmn:SubProcess" → ty ≠ "bpmn:SubProcess" →
       startTarget h sp = Ok (Some target) →
       parseProcessFlowUntilElement h n (Some target.1) "bpmn:EndEvent" t
       = (Ok (inner, last), t1) →
       e_outgoing sp = Some out → deref h (out !! 0) = Some fl →
       whileLoop h (S (S (S n))) s ty acc t
       = whileLoop h (S (S n)) (e_targetRef fl.2) ty
           (acc ++ [objectWith (rootKey sp) (JArr inner)])
           (if hasOperation sp then assign (e_id sp) (infoOf sp) t1 else t1))
  ∧ (∀ fuel,
       (parseBpmnModdle withSubProcess (8 + fuel) firstRoot ∅).1
       = Ok {| tree := JObj [("Process",
                              JArr [JObj [("Flow",
                                           JArr [JObj [("Sub", JArr [JStr "X"])];
                                                 JStr "B"])]])];
               nodeInfo := {[ "X" := {| label := "X"; concept := "click" |};
                              "Sub" := {| label := "Sub"; concept := "login" |};
                              "B" := {| label := "B"; concept := "type" |} ]} |})
  ∧ (∀ fuel,
       (parseBpmnModdle protoSubProcess (8 + fuel) firstRoot ∅).1
       = Ok {| tree := JObj [("Process",
                              JArr [JObj [("Flow", JArr [JObj []; JStr "B"])]])];
               nodeInfo := {[ "X" := {| label := "X"; concept := "click" |};
                              "B" := {| label := "B"; concept := "type" |} ]} |}).
Proof.
  split; [|split; [|split; [|split; [|split]]]].
  - apply parseProcess_returns.
  - intros h n self p sf tasks t Hsf Hlin Hn.
    by rewrite (linear_parseProcess h self p sf tasks t n Hsf Hlin Hn).
  - apply parseProcess_own.
  - intros h n s ty acc t self sp target inner last t1 out fl
      Hs Hsp Hty Hst Hwalk Hout Hfl.
    apply (whileLoop_advance h (S (S n)) s ty acc t (self, sp) _ (self, sp) _
             out fl); try done.
    + simpl. by rewrite Hsp.
    + cbn [fst snd]. rewrite segment_SubProcess by done.
      by apply parseProcess_returns with (target := target) (last := last).
  - intros fuel.
    rewrite (parseBpmnModdle_fuel withSubProcess 8 (8 + fuel)); [|lia|done].
    vm_compute. reflexivity.
  - intros fuel.
    rewrite (parseBpmnModdle_fuel protoSubProcess 8 (8 + fuel)); [|lia|done].
    vm_compute. reflexivity.
Qed.

Lemma subprocess_resumes_parent_witness :
  parseProcess withSubProcess 4 2
    (container "bpmn:SubProcess" "Sub" (Some "login") (Some [6])
       [8; 9; 10; 11; 12]) ∅
  = (Ok (JObj [("Sub", JArr [JStr "X"])],
         Some (2, container "bpmn:SubProcess" "Sub" (Some "login") (Some [6])
                    [8; 9; 10; 11; 12])),
     {[ "X" := {| label := "X"; concept := "click" |};
        "Sub" := {| label := "Sub"; concept := "login" |} ]})
  ∧ (parseProcess withSubProcess 4 2
       (container "bpmn:SubProcess" "Sub" (Some "login") (Some [6])
          [8; 9; 10; 11; 12]) ∅).1
    = Ok (JObj [("Sub", JArr [JStr "X"])],
          Some (2, container "bpmn:SubProcess" "Sub" (Some "login") (Some [6])
                     [8; 9; 10; 11; 12]))
  ∧ whileLoop withSubProcess 6 (Some 2) "bpmn:EndEvent" [] ∅
    = whileLoop withSubProcess 5 (Some 3) "bpmn:EndEvent"
        [JObj [("Sub", JArr [JStr "X"])]]
        {[ "X" := {| label := "X"; concept := "click" |};
           "Sub" := {| label := "Sub"; concept := "login" |} ]}.
Proof.
  split; [|split].
  - exact (proj1 subprocess_resumes_parent withSubProcess 3 2
             (container "bpmn:SubProcess" "Sub" (Some "login") (Some [6])
                [8; 9; 10; 11; 12])
             ∅ (9, node "bpmn:Task" "X" (Some "click") (Some [12]))
             [JStr "X"] (Some (10, node "bpmn:EndEvent" "SubEnd" None None))
             {[ "X" := {| label := "X"; concept := "click" |} ]}
             eq_refl eq_refl).
  - exact (proj1 (proj2 subprocess_resumes_parent) withSubProcess 4 2
             (container "bpmn:SubProcess" "Sub" (Some "login") (Some [6])
                [8; 9; 10; 11; 12])
             (11, flow "g1" 8 9) [9] ∅ eq_refl eq_refl ltac:(simpl; lia)).
  - exact (proj1 (proj2 (proj2 (proj2 subprocess_resumes_parent)))
             withSubProcess 3 (Some 2) "bpmn:EndEvent" [] ∅ 2
             (container "bpmn:SubProcess" "Sub" (Some "login") (Some [6])
                [8; 9; 10; 11; 12])
             (9, node "bpmn:Task" "X" (Some "click") (Some [12]))
             [JStr "X"] (Some (10, node "bpmn:EndEvent" "SubEnd" None None))
             {[ "X" := {| label := "X"; concept := "click" |} ]}
             [6] (6, flow "f2" 2 3)
             eq_refl eq_refl ltac:(discriminate) eq_refl eq_refl eq_refl eq_refl).
Defined.

(** ** The collapsing rule *)

Section Collapsing.
Variable h : Heap.
Hypothesis reserved : noFlowId h = true.

Lemma noFlowId_lookup a e : h !! a = Some e → e_id e ≠ "Flow".
Proof.
  intros Ha. pose proof reserved as Hall. unfold noFlowId in Hall.
  rewrite forallb_forall in Hall.
  eapply bool_decide_eq_true_1, Hall, list_elem_of_In, list_elem_of_lookup_2.
  exact Ha.
Qed.

Lemma wrapperFree_keyed k items :
  k ≠ "Flow" → forallb wrapperFree items = true →
  wrapperFree (objectWith k (JArr items)) = true.
Proof.
  intros Hk Hitems. unfold objectWith. case_decide; [done|].
  simpl. rewrite Hitems. unfold singleChildFlow. simpl.
  by rewrite bool_decide_eq_false_2.
Qed.

Lemma wrapperFree_collapse l :
  forallb wrapperFree l = true → forallb wrapperFree (collapse l) = true.
Proof.
  intros Hl. unfold collapse. case_decide as Hlen; [done|].
  simpl. rewrite Hl. unfold singleChildFlow. simpl.
  destruct l as [|x [|y l]]; done.
Qed.

Lemma wrapperFree_branchFragment l :
  forallb wrapperFree l = true → wrapperFree (branchFragment l) = true.
Proof.
  intros Hl. unfold branchFragment. case_decide; [|done].
  destruct l as [|x l]; [done|]. simpl in Hl. by apply andb_prop in Hl as [-> _].
Qed.

Lemma post_ret {A} (Q : A → Prop) a : Q a → post Q (ret a).
Proof. intros Ha t a' t' [= <- _]. done. Qed.

Lemma post_throw {A} (Q : A → Prop) x : post Q (throw x).
Proof. by intros t a t'. Qed.

Lemma post_outOfFuel {A} (Q : A → Prop) : post Q outOfFuel.
Proof. by intros t a t'. Qed.

Lemma post_bind {A B} (P : A → Prop) (Q : B → Prop) (m : M A) (k : A → M B) :
  post P m → (∀ a, P a → post Q (k a)) → post Q (bind m k).
Proof.
  intros Hm Hk t b t' Hb. apply bind_Ok in Hb as (a & t1 & Ha & Hb).
  eapply Hk; [|exact Hb]. eapply Hm, Ha.
Qed.

Lemma post_true {A} (m : M A) : post (λ _, True) m.
Proof. by intros t a t'. Qed.

Lemma post_add_bound e :
  post (λ _ : (), hasOperation e = true) (addProcessNodeInfo e).
Proof.
  intros t [] t'. unfold addProcessNodeInfo, getProcessNodeInfo, hasOperation.
  by destruct (operationOf e).
Qed.

Lemma post_forEachBranch walk bs : ∀ acc,
  (∀ target, post freeList (walk target)) →
  freeBranches acc → post freeBranches (forEachBranch h walk bs acc).
Proof.
  induction bs as [|b bs IH]; intros acc Hw Hacc; simpl.
  - by apply post_ret.
  - destruct (h !! b); [|apply post_throw].
    eapply post_bind; [apply Hw|]. intros [l last] Hl. apply IH; [done|].
    unfold freeBranches, pushBranch. simpl.
    rewrite forallb_app, Hacc. simpl.
    by rewrite wrapperFree_branchFragment.
Qed.

Lemma wrapperFree_all n :
  (∀ self p, h !! self = Some p → post freeTree (parseProcess h n self p)) ∧
  (∀ s ty, post freeList (parseProcessFlowUntilElement h n s ty)) ∧
  (∀ s ty acc, forallb wrapperFree acc = true →
               post freeList (whileLoop h n s ty acc)) ∧
  (∀ self e, h !! self = Some e → post freeTree (parseProcessSegment h n self e)) ∧
  (∀ self e, h !! self = Some e →
             post freeTree (parseSplittedControlflow h n self e)).
Proof.
  induction n as [|n (IHp & IHf & IHw & IHs & IHg)].
  { repeat split; intros; apply post_outOfFuel. }
  repeat split.
  - intros self p Hp. simpl.
    eapply post_bind; [apply post_true|]. intros [sf|] _; [|apply post_throw].
    destruct (deref h (e_targetRef sf.2)) as [target|]; [|apply post_throw].
    eapply post_bind; [apply IHf|]. intros [treePart last] Hfree.
    destruct (hasOperation p).
    + eapply post_bind; [apply post_true|]. intros _ _. apply post_ret.
      apply wrapperFree_keyed; [by eapply noFlowId_lookup|done].
    + apply post_ret. by apply wrapperFree_keyed.
  - intros s ty. simpl. eapply post_bind; [by apply IHw|].
    intros [parsed nx] Hfree. apply post_ret. by apply wrapperFree_collapse.
  - intros s ty acc Hacc. simpl.
    destruct (deref h s) as [[a e]|] eqn:E; [|by apply post_ret].
    apply deref_Some in E as [_ E].
    case_decide; [by apply post_ret|].
    eapply post_bind; [by apply IHs|]. intros [frag last] Hfrag.
    assert (forallb wrapperFree (acc ++ [frag]) = true) as Hacc'.
    { rewrite forallb_app, Hacc. simpl. unfold freeTree in Hfrag. simpl in Hfrag.
      by rewrite Hfrag. }
    destruct last as [le|]; [|by apply IHw].
    destruct (e_outgoing le.2) as [out|]; [|by apply IHw].
    destruct (deref h (out !! 0)); [by apply IHw|apply post_throw].
  - intros self e He. simpl.
    case_decide.
    { eapply post_bind; [apply post_true|]. intros _ _. by apply post_ret. }
    case_decide; [by apply IHg|].
    case_decide; [by apply IHp|by apply post_ret].
  - intros self e He. simpl.
    destruct (e_outgoing e) as [out|]; [|apply post_throw].
    eapply post_bind; [apply post_forEachBranch; [intros; apply IHf|done]|].
    intros [frs lasts] Hfrs.
    destruct (everySameId lasts); [|apply post_throw].
    eapply post_bind; [apply post_true|]. intros _ _. apply post_ret.
    apply wrapperFree_keyed; [by eapply noFlowId_lookup|done].
Qed.

Lemma wrapperFree_parseBpmnModdle fuel defs t pt t' :
  parseBpmnModdle h fuel defs t = (Ok pt, t') → wrapperFree (tree pt) = true.
Proof.
  unfold parseBpmnModdle.
  destruct (deref h (rootElements defs !! 0)) as [[a p]|] eqn:E; [|done].
  apply deref_Some in E as [_ E].
  intros Hb. apply bind_Ok in Hb as ([tr last] & t1 & Hp & Hk).
  injection Hk as <- _. simpl.
  destruct (wrapperFree_all fuel) as (Hall & _).
  exact (Hall a p E t _ _ Hp).
Qed.
End Collapsing.

(** ** Single-child groups *)

Section Groups.
Variable h : Heap.

Lemma groupNames_bound a e :
  h !! a = Some e → hasOperation e = true → e_id e ∈ groupNames h.
Proof.
  intros Ha Hop. unfold groupNames. right. apply list_elem_of_omap.
  exists e. split; [by eapply list_elem_of_lookup_2|]. by rewrite Hop.
Qed.

Lemma named_objectWith k items :
  k ∈ groupNames h → forallb (namedGroups (groupNames h)) items = true →
  namedGroups (groupNames h) (objectWith k (JArr items)) = true.
Proof.
  intros Hk Hitems. unfold objectWith. case_decide; [done|].
  cbn [namedGroups forallb]. rewrite Hitems, bool_decide_eq_true_2 by done.
  by destruct items as [|x [|y items]].
Qed.

Lemma named_collapse l :
  forallb (namedGroups (groupNames h)) l = true →
  forallb (namedGroups (groupNames h)) (collapse l) = true.
Proof.
  intros Hl. unfold collapse. case_decide as Hlen; [done|].
  cbn [namedGroups forallb]. rewrite Hl.
  by destruct l as [|x [|y l]].
Qed.

Lemma named_branchFragment l :
  forallb (namedGroups (groupNames h)) l = true →
  namedGroups (groupNames h) (branchFragment l) = true.
Proof.
  intros Hl. unfold branchFragment. case_decide; [|done].
  destruct l as [|x l]; [done|]. simpl in Hl. by apply andb_prop in Hl as [-> _].
Qed.

Lemma named_forEachBranch walk bs : ∀ acc,
  (∀ target,
     post (λ r : list Tree * option Node,
             forallb (namedGroups (groupNames h)) r.1 = true) (walk target)) →
  forallb (namedGroups (groupNames h)) acc.1 = true →
  post (λ r : list Tree * list Node,
          forallb (namedGroups (groupNames h)) r.1 = true)
       (forEachBranch h walk bs acc).
Proof.
  induction bs as [|b bs IH]; intros acc Hw Hacc; simpl.
  - by apply post_ret.
  - destruct (h !! b); [|apply post_throw].
    eapply post_bind; [apply Hw|]. intros [l last] Hl. apply IH; [done|].
    unfold pushBranch. simpl. rewrite forallb_app, Hacc. simpl.
    by rewrite named_branchFragment.
Qed.

Lemma named_all n :
  (∀ self p, h !! self = Some p →
     post (λ r, namedGroups (groupNames h) r.1 = true) (parseProcess h n self p)) ∧
  (∀ s ty, post (λ r, forallb (namedGroups (groupNames h)) r.1 = true)
                (parseProcessFlowUntilElement h n s ty)) ∧
  (∀ s ty acc, forallb (namedGroups (groupNames h)) acc = true →
               post (λ r, forallb (namedGroups (groupNames h)) r.1 = true)
                    (whileLoop h n s ty acc)) ∧
  (∀ self e, h !! self = Some e →
     post (λ r, namedGroups (groupNames h) r.1 = true)
          (parseProcessSegment h n self e)) ∧
  (∀ self e, h !! self = Some e →
     post (λ r, namedGroups (groupNames h) r.1 = true)
          (parseSplittedControlflow h n self e)).
Proof.
  induction n as [|n (IHp & IHf & IHw & IHs & IHg)].
  { split; [|split; [|split; [|split]]]; intros; apply post_outOfFuel. }
  split; [|split; [|split; [|split]]].
  - intros self p Hp. simpl.
    eapply post_bind; [apply post_true|]. intros [sf|] _; [|apply post_throw].
    destruct (deref h (e_targetRef sf.2)) as [target|]; [|apply post_throw].
    eapply post_bind; [apply IHf|]. intros [treePart last] Hpart.
    destruct (hasOperation p) eqn:Hop.
    + eapply post_bind; [apply post_true|]. intros _ _. apply post_ret.
      apply named_objectWith; [by eapply groupNames_bound|done].
    + apply post_ret. apply named_objectWith; [by left|done].
  - intros s ty. simpl. eapply post_bind; [by apply IHw|].
    intros [parsed nx] Hparsed. apply post_ret. by apply named_collapse.
  - intros s ty acc Hacc. simpl.
    destruct (deref h s) as [[a e]|] eqn:E; [|by apply post_ret].
    apply deref_Some in E as [_ E].
    case_decide; [by apply post_ret|].
    eapply post_bind; [by apply IHs|]. intros [frag last] Hfrag.
    assert (forallb (namedGroups (groupNames h)) (acc ++ [frag]) = true) as Hacc'.
    { rewrite forallb_app, Hacc. simpl. simpl in Hfrag. by rewrite Hfrag. }
    destruct last as [le|]; [|by apply IHw].
    destruct (e_outgoing le.2) as [out|]; [|by apply IHw].
    destruct (deref h (out !! 0)); [by apply IHw|apply post_throw].
  - intros self e He. simpl.
    case_decide.
    { eapply post_bind; [apply post_true|]. intros _ _. by apply post_ret. }
    case_decide; [by apply IHg|].
    case_decide; [by apply IHp|by apply post_ret].
  - intros self e He. simpl.
    destruct (e_outgoing e) as [out|]; [|apply post_throw].
    eapply post_bind; [apply named_forEachBranch; [intros; apply IHf|done]|].
    intros [frs lasts] Hfrs.
    destruct (everySameId lasts); [|apply post_throw].
    eapply post_bind; [apply post_add_bound|]. intros u Hop. simpl in Hop.
    apply post_ret.
    apply named_objectWith; [by eapply groupNames_bound|done].
Qed.

Lemma named_parseBpmnModdle fuel defs t pt t' :
  parseBpmnModdle h fuel defs t = (Ok pt, t') →
  namedGroups (groupNames h) (tree pt) = true.
Proof.
  unfold parseBpmnModdle.
  destruct (deref h (rootElements defs !! 0)) as [[a p]|] eqn:E; [|done].
  apply deref_Some in E as [_ E].
  intros Hb. apply bind_Ok in Hb as ([tr last] & t1 & Hp & Hk).
  injection Hk as <- _. simpl.
  destruct (named_all fuel) as (Hall & _).
  exact (Hall a p E t _ _ Hp).
Qed.

Lemma collapse_segment parsed : collapse parsed = [segmentOf parsed].
Proof. unfold collapse. by destruct parsed as [|x [|y parsed]]. Qed.

Lemma branchFragment_collapse parsed :
  branchFragment (collapse parsed) = segmentOf parsed.
Proof. by rewrite collapse_segment. Qed.

Lemma branchWalk_loop n ty (out : list addr) :
  ∀ loops : list (list Tree * option Node),
  branchLoop h n ty <$> out = Ok <$> loops →
  branchWalk h (S n) ty <$> out
  = Ok <$> ((λ r, (collapse r.1, r.2)) <$> loops).
Proof.
  induction out as [|b out IH]; intros loops Hl.
  - by destruct loops.
  - destruct loops as [|[parsed nx] loops]; [done|].
    injection Hl as Hb Hl. simpl. f_equal; [|by apply IH].
    unfold branchLoop in Hb. unfold branchWalk.
    destruct (h !! b) as [branch|]; [|done].
    rewrite walk_S.
    destruct (whileLoop h n (e_targetRef branch) ty [] ∅) as [o t1].
    simpl in Hb. by subst o.
Qed.

(** The fragment a split pushes for a branch is the segment of what the
    loop of that branch parsed. *)
Lemma split_segments n self gw out loops t :
  e_outgoing gw = Some out →
  branchLoop h n (e_type gw) <$> out = Ok <$> loops →
  everySameId (terminals loops) = true →
  hasOperation gw = true →
  (parseSplittedControlflow h (S (S n)) self gw t).1
  = Ok (objectWith (e_id gw) (JArr ((λ r, segmentOf r.1) <$> loops)),
        head (terminals loops)).
Proof.
  intros Hout Hl Hsame Hop.
  rewrite (splitted_results h (S n) self gw out _ t Hout
             (branchWalk_loop n (e_type gw) out loops Hl)).
  assert (terminals ((λ r, (collapse r.1, r.2)) <$> loops) = terminals loops)
    as ->.
  { unfold terminals. clear.
    induction loops as [|[l [nx|]] loops IH]; simpl; [done|by f_equal|done]. }
  rewrite Hsame, (hasOperation_info gw Hop). do 4 f_equal.
  rewrite <- list_fmap_compose. apply list_fmap_ext.
  intros i [l nx] _. simpl. apply branchFragment_collapse.
Qed.
End Groups.

(** C7. At every level the walk returns a one-element array whose item is
    the segment of the ordered list it parsed: the single parsed element
    itself when the list has exactly one element, and otherwise a Flow
    group holding the list in order.  A split unwraps that array for each
    branch, so that the fragments it lists are, in order, the segments of
    what its branches parsed, never an array or a wrapped single element.
    Every group of the resulting tree that has exactly one child is
    therefore the group of a process or of an element that carries an
    operation, named "Process" or by that element's id, not a wrapper; and
    in a graph where no element is itself named "Flow", no Flow group with
    exactly one child occurs anywhere in the tree. *)
Theorem collapsing_rule :
  (∀ h n s ty t,
     parseProcessFlowUntilElement h (S n) s ty t
     = match whileLoop h n s ty [] t with
       | (Ok (parsed, nx), t1) => (Ok ([segmentOf parsed], nx), t1)
       | (Throw x, t1) => (Throw x, t1)
       | (OutOfFuel, t1) => (OutOfFuel, t1)
       end)
  ∧ (∀ h n self gw out loops t,
       e_outgoing gw = Some out →
       branchLoop h n (e_type gw) <$> out = Ok <$> loops →
       everySameId (terminals loops) = true →
       hasOperation gw = true →
       (parseSplittedControlflow h (S (S n)) self gw t).1
       = Ok (objectWith (e_id gw) (JArr ((λ r, segmentOf r.1) <$> loops)),
             head (terminals loops)))
  ∧ (∀ h fuel defs t pt t',
       parseBpmnModdle h fuel defs t = (Ok pt, t') →
       namedGroups (groupNames h) (tree pt) = true)
  ∧ (∀ h fuel defs t pt t',
       noFlowId h = true →
       parseBpmnModdle h fuel defs t = (Ok pt, t') →
       wrapperFree (tree pt) = true).
Proof.
  split; [|split; [|split]].
  - intros h n s ty t. rewrite walk_S.
    destruct (whileLoop h n s ty [] t) as [[[parsed nx]| |] t1]; [|done..].
    by rewrite collapse_segment.
  - apply split_segments.
  - apply named_parseBpmnModdle.
  - intros h fuel defs t pt t' Hres. by apply wrapperFree_parseBpmnModdle.
Qed.

Lemma collapsing_rule_witness :
  (parseSplittedControlflow twoTaskBranch (S (S 3)) 2
     (node "bpmn:ExclusiveGateway" "X" (Some "choose") (Some [9; 10])) ∅).1
  = Ok (JObj [("X", JArr [JObj [("Flow", JArr [JStr "A"; JStr "B"])];
                          JStr "C"])],
        Some (6, node "bpmn:ExclusiveGateway" "Y" None (Some [14])))
  ∧ namedGroups (groupNames startABEnd)
      (JObj [("Process", JArr [JObj [("Flow", JArr [JStr "A"; JStr "B"])]])])
    = true
  ∧ wrapperFree
      (JObj [("Process", JArr [JObj [("Flow", JArr [JStr "A"; JStr "B"])]])])
    = true.
Proof.
  split; [|split].
  - exact (proj1 (proj2 collapsing_rule) twoTaskBranch 3 2
             (node "bpmn:ExclusiveGateway" "X" (Some "choose") (Some [9; 10]))
             [9; 10]
             [([JStr "A"; JStr "B"],
               Some (6, node "bpmn:ExclusiveGateway" "Y" None (Some [14])));
              ([JStr "C"],
               Some (6, node "bpmn:ExclusiveGateway" "Y" None (Some [14])))]
             ∅ eq_refl eq_refl eq_refl eq_refl).
  - exact (proj1 (proj2 (proj2 collapsing_rule)) startABEnd 5 firstRoot ∅
             {| tree := JObj [("Process",
                               JArr [JObj [("Flow", JArr [JStr "A"; JStr "B"])]])];
                nodeInfo := {[ "A" := {| label := "A"; concept := "click" |};
                               "B" := {| label := "B"; concept := "type" |} ]} |}
             {[ "A" := {| label := "A"; concept := "click" |};
                "B" := {| label := "B"; concept := "type" |} ]}
             eq_refl).
  - exact (proj2 (proj2 (proj2 collapsing_rule)) startABEnd 5 firstRoot ∅
             {| tree := JObj [("Process",
                               JArr [JObj [("Flow", JArr [JStr "A"; JStr "B"])]])];
                nodeInfo := {[ "A" := {| label := "A"; concept := "click" |};
                               "B" := {| label := "B"; concept := "type" |} ]} |}
             {[ "A" := {| label := "A"; concept := "click" |};
                "B" := {| label := "B"; concept := "type" |} ]}
             eq_refl eq_refl).
Defined.

(** ** Dead ends *)

(** C8. A Task whose list of outgoing flows is empty does not end the walk:
    the guard only asks whether the list exists, so the walk reads the
    target of [outgoing[0]], which is undefined, and the conversion of
    Start -> A aborts with a TypeError after A was recorded. *)
Theorem empty_outgoing_type_error :
  ∀ fuel,
    parseBpmnModdle deadEndTask (4 + fuel) firstRoot ∅
    = (Throw TypeError, {[ "A" := {| label := "A"; concept := "click" |} ]}).
Proof.
  intros fuel.
  rewrite (parseBpmnModdle_fuel deadEndTask 4 (4 + fuel)); [done|lia|done].
Qed.

(** ** The table across failures and calls *)

Lemma parseBpmnModdle_nodeInfo h fuel defs t pt t' :
  parseBpmnModdle h fuel defs t = (Ok pt, t') → nodeInfo pt = t'.
Proof.
  unfold parseBpmnModdle.
  destruct (deref h (rootElements defs !! 0)) as [[a p]|]; [|done].
  intros Hb. apply bind_Ok in Hb as ([tr last] & t1 & _ & Hk).
  by injection Hk as <- <-.
Qed.

Lemma whileLoop_keeps_segment h n s ty acc t cur r t1 :
  deref h s = Some cur → e_type cur.2 ≠ ty →
  parseProcessSegment h n cur.1 cur.2 t = (Ok r, t1) →
  extends h t1 (whileLoop h (S n) s ty acc t).2.
Proof.
  intros Hs Hty Hseg. simpl. rewrite Hs, decide_False by done.
  erewrite bind_eq_Ok by exact Hseg.
  destruct (keeps_all h n) as (_ & _ & Hw & _).
  destruct r as [frag [le|]]; [|apply Hw].
  destruct (e_outgoing le.2) as [out|]; [|apply Hw].
  destruct (deref h (out !! 0)); [apply Hw|apply extends_refl].
Qed.

(** C10. [processTreeNodes] is never cleared.  Whatever the outcome of a
    conversion, every key the table held before is still present
    afterwards, with its old entry unless an element of the converted graph
    carries that id; what one segment of a walk recorded stays in the table
    whatever the rest of the walk does, as in Start -> A -> B -> End with B
    unbound, which fails and leaves A's entry behind; and the table a
    later call returns as [nodeInfo] still holds every key left by the
    earlier call. *)
Theorem table_never_cleared :
  (∀ h fuel defs t k,
     is_Some (t !! k) → is_Some ((parseBpmnModdle h fuel defs t).2 !! k))
  ∧ (∀ h fuel defs t k,
       (∀ a e, h !! a = Some e → e_id e ≠ k) →
       (parseBpmnModdle h fuel defs t).2 !! k = t !! k)
  ∧ (∀ h n s ty acc t cur r t1 k,
       deref h s = Some cur → e_type cur.2 ≠ ty →
       parseProcessSegment h n cur.1 cur.2 t = (Ok r, t1) →
       is_Some (t1 !! k) →
       is_Some ((whileLoop h (S n) s ty acc t).2 !! k))
  ∧ parseBpmnModdle unboundB 5 firstRoot ∅
    = (Throw MissingOperationBinding,
       {[ "A" := {| label := "A"; concept := "click" |} ]})
  ∧ (∀ h1 h2 f1 f2 d1 d2 t0 pt t2,
       parseBpmnModdle h2 f2 d2 (parseBpmnModdle h1 f1 d1 t0).2 = (Ok pt, t2) →
       ∀ k, is_Some ((parseBpmnModdle h1 f1 d1 t0).2 !! k) →
            is_Some (nodeInfo pt !! k)).
Proof.
  split; [|split; [|split; [|split]]].
  - intros h fuel defs t k. eapply extends_is_Some, keeps_parseBpmnModdle.
  - intros h fuel defs t k Hfresh.
    destruct (keeps_parseBpmnModdle h fuel defs t k)
      as [E|(i & (a & e & Ha & Hid & _) & _)]; [done|].
    by destruct (Hfresh a e Ha).
  - intros h n s ty acc t cur r t1 k Hs Hty Hseg.
    eapply extends_is_Some, whileLoop_keeps_segment; done.
  - done.
  - intros h1 h2 f1 f2 d1 d2 t0 pt t2 Hsecond k Hk.
    rewrite (parseBpmnModdle_nodeInfo _ _ _ _ _ _ Hsecond).
    replace t2 with (parseBpmnModdle h2 f2 d2 (parseBpmnModdle h1 f1 d1 t0).2).2
      by (by rewrite Hsecond).
    eapply extends_is_Some; [apply keeps_parseBpmnModdle|done].
Qed.

Lemma table_never_cleared_witness :
  is_Some ((parseBpmnModdle unboundB 5 firstRoot
              {[ "Z" := {| label := "stale"; concept := "stale" |} ]}).2 !! "Z")
  ∧ is_Some ((whileLoop unboundB 3 (Some 2) "bpmn:EndEvent" [] ∅).2 !! "A")
  ∧ (∀ k, is_Some ((parseBpmnModdle unboundB 5 firstRoot ∅).2 !! k) →
          is_Some (({[ "A" := {| label := "A"; concept := "click" |} ]}
                      : gmap string ProcessTreeNodeInfo) !! k)).
Proof.
  split; [|split].
  - exact (proj1 table_never_cleared unboundB 5 firstRoot
             {[ "Z" := {| label := "stale"; concept := "stale" |} ]} "Z"
             (mk_is_Some _ _ eq_refl)).
  - exact (proj1 (proj2 (proj2 table_never_cleared)) unboundB 2 (Some 2)
             "bpmn:EndEvent" [] ∅
             (2, node "bpmn:Task" "A" (Some "click") (Some [6]))
             (JStr "A", Some (2, node "bpmn:Task" "A" (Some "click") (Some [6])))
             {[ "A" := {| label := "A"; concept := "click" |} ]} "A"
             eq_refl ltac:(discriminate) eq_refl (mk_is_Some _ _ eq_refl)).
  - exact (proj2 (proj2 (proj2 (proj2 table_never_cleared)))
             unboundB startAEnd 5 4 firstRoot firstRoot ∅
             {| tree := JObj [("Process", JArr [JStr "A"])];
                nodeInfo := {[ "A" := {| label := "A"; concept := "click" |} ]} |}
             {[ "A" := {| label := "A"; concept := "click" |} ]}
             eq_refl).
Defined.

(** ** Termination *)

Section Termination.
Variable h : Heap.
Variable rank : addr → nat.
Hypothesis acyclic : ranked h rank = true.

Lemma ranked_successor a e b :
  h !! a = Some e → b ∈ successors h e → rank b < rank a.
Proof.
  intros Ha Hb. pose proof acyclic as Hall. unfold ranked in Hall.
  rewrite forallb_forall in Hall.
  assert (In (a, e) (imap pair h)) as Hin.
  { apply list_elem_of_In, elem_of_lookup_imap. eauto. }
  apply Hall in Hin. rewrite forallb_forall in Hin.
  eapply (bool_decide_eq_true_1 (rank b < rank a)), Hin, list_elem_of_In.
  exact Hb.
Qed.

Lemma rankOf_flow a e f fl :
  h !! a = Some e →
  f ∈ default [] (e_outgoing e) ++ default [] (e_flowElements e) →
  h !! f = Some fl →
  rankOf h rank (e_targetRef fl) ≤ rank a.
Proof.
  intros Ha Hf Hfl. unfold rankOf.
  destruct (deref h (e_targetRef fl)) as [[b eb]|] eqn:E; [|lia].
  apply deref_Some in E as [Eb _]. simpl.
  assert (b ∈ successors h e); [|by apply (ranked_successor a e b Ha)].
  unfold successors. apply list_elem_of_omap. exists f. split; [done|].
  by rewrite Hfl.
Qed.

Lemma rankOf_first_outgoing a e out fl :
  h !! a = Some e → e_outgoing e = Some out →
  deref h (out !! 0) = Some fl →
  rankOf h rank (e_targetRef fl.2) ≤ rank a.
Proof.
  intros Ha Hout Hfl. destruct fl as [f fl].
  apply deref_Some in Hfl as [Hf Hfl].
  eapply rankOf_flow; [done| |done].
  rewrite Hout. simpl. apply elem_of_app. left.
  by eapply list_elem_of_lookup_2.
Qed.

Lemma filterSequenceFlows_elem fes : ∀ sfs sf,
  filterSequenceFlows h fes = Ok sfs → sf ∈ sfs →
  sf.1 ∈ fes ∧ h !! sf.1 = Some sf.2.
Proof.
  induction fes as [|a fes IH]; intros sfs sf; simpl.
  - intros [= <-] Hin. by apply elem_of_nil in Hin.
  - destruct (h !! a) as [fe|] eqn:Ea; [|done].
    destruct (filterSequenceFlows h fes) as [rest| |]; [|done..].
    case_decide; intros [= <-] Hin.
    + apply elem_of_cons in Hin as [->|Hin].
      * split; [by left|done].
      * destruct (IH rest sf eq_refl Hin). split; [by right|done].
    + destruct (IH rest sf eq_refl Hin). split; [by right|done].
Qed.

Lemma findStartFlow_elem sfs : ∀ sf,
  findStartFlow h sfs = Ok (Some sf) → sf ∈ sfs.
Proof.
  induction sfs as [|x sfs IH]; intros sf; simpl; [done|].
  destruct (deref h (e_sourceRef x.2)); [|done].
  case_decide.
  - intros [= <-]. by left.
  - intros Hf. right. by apply IH.
Qed.

Lemma startTarget_fuel p : startTarget h p ≠ OutOfFuel.
Proof.
  unfold startTarget, getStartFlowOfProcess.
  assert (∀ fes, filterSequenceFlows h fes ≠ OutOfFuel) as Hfilter.
  { induction fes as [|a fes IH]; simpl; [done|].
    destruct (h !! a); [|done].
    destruct (filterSequenceFlows h fes); [by case_decide|done..]. }
  assert (∀ sfs, findStartFlow h sfs ≠ OutOfFuel) as Hfind.
  { induction sfs as [|sf sfs IH]; simpl; [done|].
    destruct (deref h (e_sourceRef sf.2)); [by case_decide|done]. }
  destruct (e_flowElements p) as [fes|]; [|done].
  specialize (Hfilter fes).
  destruct (filterSequenceFlows h fes) as [sfs| |]; [|done..].
  specialize (Hfind sfs).
  by destruct (findStartFlow h sfs) as [[sf|]| |].
Qed.

Lemma rankOf_start a p target :
  h !! a = Some p → startTarget h p = Ok (Some target) →
  rankOf h rank (Some target.1) ≤ rank a.
Proof.
  intros Ha. unfold startTarget, getStartFlowOfProcess.
  destruct (e_flowElements p) as [fes|] eqn:Efes; [|done].
  destruct (filterSequenceFlows h fes) as [sfs| |] eqn:Ef; [|done..].
  destruct (findStartFlow h sfs) as [[sf|]| |] eqn:Es; try done.
  intros [= Ht].
  apply findStartFlow_elem in Es.
  destruct (filterSequenceFlows_elem _ _ _ Ef Es) as [Hin Hsf].
  pose proof (rankOf_flow a p sf.1 sf.2 Ha) as Hr.
  destruct target as [b eb]. destruct (deref_Some _ _ _ _ Ht) as [Et _].
  rewrite Et in Hr. apply Hr; [|done].
  rewrite Efes. apply elem_of_app. by right.
Qed.

Lemma below_mono k k' o : k ≤ k' → below h rank k o → below h rank k' o.
Proof. intros Hk Ho nx Hnx. destruct (Ho nx Hnx). split; [done|lia]. Qed.

Lemma below_None k : below h rank k None.
Proof. by intros nx. Qed.

Lemma below_Some k a e :
  h !! a = Some e → rank a < k → below h rank k (Some (a, e)).
Proof. by intros Ha Hk nx [= <-]. Qed.

Lemma post_lasts (Q : Node → Prop) walk bs : ∀ acc,
  (∀ b branch, b ∈ bs → h !! b = Some branch →
     post (λ r : list Tree * option Node, ∀ nx, r.2 = Some nx → Q nx)
          (walk (e_targetRef branch))) →
  Forall Q acc.2 →
  post (λ r : list Tree * list Node, Forall Q r.2) (forEachBranch h walk bs acc).
Proof.
  induction bs as [|b bs IH]; intros acc Hw Hacc; simpl.
  - by apply post_ret.
  - destruct (h !! b) as [branch|] eqn:Eb; [|apply post_throw].
    eapply post_bind; [apply (Hw b branch); [by left|done]|].
    intros [l last] Hl. apply IH.
    + intros b' branch' Hin. apply Hw. by right.
    + unfold pushBranch. simpl. destruct last as [nx|]; [|done].
      apply Forall_app. split; [done|]. apply Forall_singleton. by apply Hl.
Qed.

(** Where a walk stops lies at or below where it started. *)
Lemma stops_below n :
  (∀ self p, h !! self = Some p →
     post (λ r, below h rank (S (rank self)) r.2) (parseProcess h n self p)) ∧
  (∀ s ty, post (λ r, below h rank (rankOf h rank s) r.2)
                (parseProcessFlowUntilElement h n s ty)) ∧
  (∀ s ty acc, post (λ r, below h rank (rankOf h rank s) r.2)
                    (whileLoop h n s ty acc)) ∧
  (∀ self e, h !! self = Some e →
     post (λ r, below h rank (S (rank self)) r.2) (parseProcessSegment h n self e)) ∧
  (∀ self e, h !! self = Some e →
     post (λ r, below h rank (S (rank self)) r.2)
          (parseSplittedControlflow h n self e)).
Proof.
  induction n as [|n (IHp & IHf & IHw & IHs & IHg)].
  { split; [|split; [|split; [|split]]]; intros; apply post_outOfFuel. }
  split; [|split; [|split; [|split]]].
  - intros self p Hp. simpl.
    eapply post_bind; [apply post_true|]. intros [sf|] _; [|apply post_throw].
    destruct (deref h (e_targetRef sf.2)) as [target|]; [|apply post_throw].
    eapply post_bind; [apply post_true|]. intros [treePart last] _.
    destruct (hasOperation p).
    + eapply post_bind; [apply post_true|]. intros _ _. apply post_ret.
      apply below_Some; [done|lia].
    + apply post_ret. apply below_Some; [done|lia].
  - intros s ty. simpl. eapply post_bind; [apply IHw|].
    intros [parsed nx] Hnx. by apply post_ret.
  - intros s ty acc. simpl. unfold rankOf.
    destruct (deref h s) as [[a e]|] eqn:E; [|apply post_ret, below_None].
    apply deref_Some in E as [_ E]. simpl.
    case_decide; [apply post_ret; simpl; apply below_Some; [done|lia]|].
    eapply post_bind; [by apply IHs|]. intros [frag last] Hlast.
    assert (∀ s', rankOf h rank s' ≤ S (rank a) →
              post (λ r, below h rank (S (rank a)) r.2)
                   (whileLoop h n s' ty (acc ++ [frag]))) as Hnext.
    { intros s' Hs' t r t' Hr. eapply below_mono; [exact Hs'|].
      by eapply IHw. }
    destruct last as [le|]; [|apply Hnext; unfold rankOf; simpl; lia].
    destruct (Hlast le eq_refl) as [Hle Hrank].
    destruct (e_outgoing le.2) as [out|] eqn:Hout;
      [|apply Hnext; unfold rankOf; simpl; lia].
    destruct (deref h (out !! 0)) as [fl|] eqn:Hfl; [|apply post_throw].
    apply Hnext.
    pose proof (rankOf_first_outgoing le.1 le.2 out fl Hle Hout Hfl). lia.
  - intros self e He. simpl.
    case_decide.
    { eapply post_bind; [apply post_true|]. intros _ _. apply post_ret.
      apply below_Some; [done|lia]. }
    case_decide; [by apply IHg|].
    case_decide; [by apply IHp|apply post_ret, below_None].
  - intros self e He. simpl.
    destruct (e_outgoing e) as [out|] eqn:Hout; [|apply post_throw].
    eapply post_bind.
    { apply (post_lasts (λ nx, h !! nx.1 = Some nx.2 ∧ rank nx.1 < S (rank self)));
        [|done].
      intros b branch Hb Hbranch t r t' Hr nx Hnx.
      eapply below_mono; [|by eapply IHf|exact Hnx].
      assert (rankOf h rank (e_targetRef branch) ≤ rank self); [|lia].
      eapply rankOf_flow; [done| |done].
      rewrite Hout. simpl. apply elem_of_app. by left. }
    intros [frs lasts] Hlasts. simpl in Hlasts.
    destruct (everySameId lasts); [|apply post_throw].
    eapply post_bind; [apply post_true|]. intros _ _. apply post_ret.
    simpl. intros nx Hnx. destruct lasts as [|l0 lasts]; [done|].
    injection Hnx as ->. by apply Forall_inv in Hlasts.
Qed.

Lemma terminates_ret {A} (a : A) : terminates (ret a).
Proof. done. Qed.

Lemma terminates_throw {A} x : terminates (@throw A x).
Proof. done. Qed.

Lemma terminates_add e : terminates (addProcessNodeInfo e).
Proof.
  intros t. unfold addProcessNodeInfo, getProcessNodeInfo.
  by destruct (operationOf e).
Qed.

Lemma terminates_bind {A B} (P : A → Prop) (m : M A) (k : A → M B) :
  terminates m → post P m → (∀ a, P a → terminates (k a)) →
  terminates (bind m k).
Proof.
  intros Hm HP Hk t. unfold bind. specialize (Hm t).
  destruct (m t) as [[a| |] t1] eqn:E; simpl in *; [|done..].
  apply Hk. by eapply HP.
Qed.

Lemma terminates_forEachBranch walk bs : ∀ acc,
  (∀ b branch, b ∈ bs → h !! b = Some branch →
               terminates (walk (e_targetRef branch))) →
  terminates (forEachBranch h walk bs acc).
Proof.
  induction bs as [|b bs IH]; intros acc Hw; simpl.
  - apply terminates_ret.
  - destruct (h !! b) as [branch|] eqn:Eb; [|apply terminates_throw].
    eapply terminates_bind;
      [apply (Hw b branch); [by left|done]|apply post_true|].
    intros [l last] _. apply IH. intros b' branch' Hin. apply Hw. by right.
Qed.

Lemma walk_ends k n s ty :
  loopsEnd h rank k → rankOf h rank s ≤ k → 4 * k + 2 ≤ n →
  terminates (parseProcessFlowUntilElement h n s ty).
Proof.
  intros Hk Hs Hn. destruct n as [|n]; [lia|]. simpl.
  eapply terminates_bind; [apply Hk; [done|lia]|apply post_true|].
  intros [parsed nx] _. apply terminates_ret.
Qed.

Lemma process_ends k n self p :
  loopsEnd h rank k → h !! self = Some p → rank self ≤ k → 4 * k + 3 ≤ n →
  terminates (parseProcess h n self p).
Proof.
  intros Hk Hp Hself Hn. destruct n as [|n]; [lia|].
  intros t. rewrite parseProcess_start.
  pose proof (startTarget_fuel p) as Hst.
  destruct (startTarget h p) as [[target|]| |] eqn:Est; try done.
  pose proof (rankOf_start self p target Hp Est) as Hr.
  pose proof (walk_ends k n (Some target.1) "bpmn:EndEvent" Hk) as Hw.
  specialize (Hw ltac:(lia) ltac:(lia) t).
  unfold finishProcess.
  by destruct (parseProcessFlowUntilElement h n (Some target.1) "bpmn:EndEvent" t)
    as [[[treePart last]| |] t1].
Qed.

Lemma split_ends k n self e :
  loopsEnd h rank k → h !! self = Some e → rank self ≤ k → 4 * k + 3 ≤ n →
  terminates (parseSplittedControlflow h n self e).
Proof.
  intros Hk He Hself Hn. destruct n as [|n]; [lia|]. simpl.
  destruct (e_outgoing e) as [out|] eqn:Hout; [|apply terminates_throw].
  eapply terminates_bind; [|apply post_true|].
  - apply terminates_forEachBranch. intros b branch Hb Hbranch.
    apply (walk_ends k); [done| |lia].
    assert (rankOf h rank (e_targetRef branch) ≤ rank self); [|lia].
    eapply rankOf_flow; [done| |done].
    rewrite Hout. simpl. apply elem_of_app. by left.
  - intros [frs lasts] _.
    destruct (everySameId lasts); [|apply terminates_throw].
    eapply terminates_bind; [apply terminates_add|apply post_true|].
    intros _ _. apply terminates_ret.
Qed.

Lemma segment_ends k n self e :
  loopsEnd h rank k → h !! self = Some e → rank self ≤ k → 4 * k + 4 ≤ n →
  terminates (parseProcessSegment h n self e).
Proof.
  intros Hk He Hself Hn. destruct n as [|n]; [lia|]. simpl.
  case_decide.
  { eapply terminates_bind; [apply terminates_add|apply post_true|].
    intros _ _. apply terminates_ret. }
  case_decide; [apply (split_ends k); [done..|lia]|].
  case_decide; [apply (process_ends k); [done..|lia]|apply terminates_ret].
Qed.

Lemma loops_end k : loopsEnd h rank k.
Proof.
  induction k as [|k IH]; intros n s ty acc Hs Hn.
  - destruct n as [|n]; [lia|]. simpl. unfold rankOf in Hs.
    destruct (deref h s) as [cur|]; [lia|apply terminates_ret].
  - destruct n as [|n]; [lia|]. simpl. unfold rankOf in Hs.
    destruct (deref h s) as [[a e]|] eqn:E; [|apply terminates_ret].
    apply deref_Some in E as [_ E]. simpl in Hs. cbn [fst snd].
    case_decide; [apply terminates_ret|].
    destruct (stops_below n) as (_ & _ & _ & Hbelow & _).
    eapply terminates_bind;
      [apply (segment_ends k); [done..|lia|lia]|by apply Hbelow|].
    intros [frag last] Hlast. simpl in Hlast.
    destruct last as [le|]; [|apply IH; [unfold rankOf; simpl; lia|lia]].
    destruct (Hlast le eq_refl) as [Hle Hrank].
    destruct (e_outgoing le.2) as [out|] eqn:Hout;
      [|apply IH; [unfold rankOf; simpl; lia|lia]].
    destruct (deref h (out !! 0)) as [fl|] eqn:Hfl; [|apply terminates_throw].
    apply IH; [|lia].
    pose proof (rankOf_first_outgoing le.1 le.2 out fl Hle Hout Hfl). lia.
Qed.

Lemma parseBpmnModdle_ends fuel defs t :
  4 * rankOf h rank (rootElements defs !! 0) + 3 ≤ fuel →
  (parseBpmnModdle h fuel defs t).1 ≠ OutOfFuel.
Proof.
  intros Hfuel. unfold parseBpmnModdle. unfold rankOf in Hfuel.
  destruct (deref h (rootElements defs !! 0)) as [[a p]|] eqn:E; [|done].
  apply deref_Some in E as [_ E]. simpl in Hfuel. cbn [fst snd].
  revert t. eapply terminates_bind; [|apply post_true|by intros [tr last] _].
  apply (process_ends (rank a)); [apply loops_end|done|lia|lia].
Qed.
End Termination.

Lemma selfLoop_loops n : ∀ acc t,
  (whileLoop selfLoop n (Some 2) "bpmn:EndEvent" acc t).1 = OutOfFuel.
Proof.
  induction n as [|n IH]; intros acc t; [done|].
  destruct n as [|n]; [done|].
  rewrite (whileLoop_advance selfLoop (S n) (Some 2) "bpmn:EndEvent" acc t
             (2, node "bpmn:Task" "A" (Some "click") (Some [4]))
             (JStr "A")
             (2, node "bpmn:Task" "A" (Some "click") (Some [4]))
             (<["A" := {| label := "A"; concept := "click" |}]> t)
             [4] (4, flow "f2" 2 2)); [apply IH|done..].
Qed.

Lemma bind_outOfFuel {A B} (m : M A) (k : A → M B) t :
  (m t).1 = OutOfFuel → (bind m k t).1 = OutOfFuel.
Proof. unfold bind. by destruct (m t) as [[a| |] t1]. Qed.

Lemma finishProcess_outOfFuel self p w :
  w.1 = OutOfFuel → (finishProcess self p w).1 = OutOfFuel.
Proof. by destruct w as [[[treePart last]| |] t1]. Qed.

Lemma walk_outOfFuel h n s ty t :
  (whileLoop h n s ty [] t).1 = OutOfFuel →
  (parseProcessFlowUntilElement h (S n) s ty t).1 = OutOfFuel.
Proof. apply bind_outOfFuel. Qed.

(** C9, as stated, fails twice over.  In Start -> A -> A the walk never
    leaves A, so no amount of fuel lets the conversion return a tree or
    raise an error.  And a conversion that does end need not end in a tree
    or in one of the three fatal errors: Start -> A with A's list of
    outgoing flows empty has no cycle and aborts with a TypeError. *)
Lemma termination_counterexamples :
  (¬ ∃ fuel, (parseBpmnModdle selfLoop fuel firstRoot ∅).1 ≠ OutOfFuel)
  ∧ ranked deadEndTask (λ a, 4 - a) = true
  ∧ (∀ fuel, (parseBpmnModdle deadEndTask (4 + fuel) firstRoot ∅).1
             = Throw TypeError)
  ∧ TypeError ≠ MalformedGraph ∧ TypeError ≠ InconsistentJoin
  ∧ TypeError ≠ MissingOperationBinding.
Proof.
  split; [|split; [done|split; [|done]]].
  - intros [fuel Hfuel]. apply Hfuel. clear Hfuel.
    unfold parseBpmnModdle. change (deref selfLoop (rootElements firstRoot !! 0))
      with (Some (0, container "bpmn:Process" "Process_1" None None [1; 2; 3; 4])).
    cbn [fst snd]. apply bind_outOfFuel.
    destruct fuel as [|[|n]]; [done..|].
    rewrite parseProcess_start.
    change (startTarget selfLoop
              (container "bpmn:Process" "Process_1" None None [1; 2; 3; 4]))
      with (@Ok (option Node)
              (Some (2, node "bpmn:Task" "A" (Some "click") (Some [4])))).
    cbn [fst]. apply finishProcess_outOfFuel, walk_outOfFuel, selfLoop_loops.
  - intros fuel.
    rewrite (parseBpmnModdle_fuel deadEndTask 4 (4 + fuel)); [done|lia|done].
Qed.

(** C9, amended.  When some ranking of the nodes strictly decreases along
    every sequence flow (from a node to the targets of its outgoing flows
    and from a process to the targets of its own flow elements), the
    conversion terminates: from some amount of fuel on it yields one and
    the same outcome, which is a process tree, one of the three fatal
    errors, or a TypeError. *)
Theorem acyclic_conversion_terminates h rank defs t :
  ranked h rank = true →
  ∃ fuel0 r,
    ((∃ pt, r.1 = Ok pt)
     ∨ r.1 = Throw MalformedGraph ∨ r.1 = Throw InconsistentJoin
     ∨ r.1 = Throw MissingOperationBinding ∨ r.1 = Throw TypeError)
    ∧ ∀ fuel, fuel0 ≤ fuel → parseBpmnModdle h fuel defs t = r.
Proof.
  intros Hranked.
  pose proof (parseBpmnModdle_ends h rank Hranked
                (4 * rankOf h rank (rootElements defs !! 0) + 3) defs t
                ltac:(lia)) as Hends.
  exists (4 * rankOf h rank (rootElements defs !! 0) + 3).
  exists (parseBpmnModdle h (4 * rankOf h rank (rootElements defs !! 0) + 3) defs t).
  split.
  - pose proof (parseBpmnModdle_raises h defs
                  (4 * rankOf h rank (rootElements defs !! 0) + 3) t) as Hknown.
    destruct (parseBpmnModdle h (4 * rankOf h rank (rootElements defs !! 0) + 3)
                defs t).1 as [pt|x|]; [left; by exists pt| |done].
    right. destruct (Hknown x eq_refl) as [->|[->|[->|[-> _]]]]; auto.
  - intros fuel Hfuel. by apply parseBpmnModdle_fuel.
Qed.

Lemma acyclic_conversion_terminates_witness :
  ∃ fuel0 r,
    ((∃ pt, r.1 = Ok pt)
     ∨ r.1 = Throw MalformedGraph ∨ r.1 = Throw InconsistentJoin
     ∨ r.1 = Throw MissingOperationBinding ∨ r.1 = Throw TypeError)
    ∧ ∀ fuel, fuel0 ≤ fuel → parseBpmnModdle splitJoin fuel firstRoot ∅ = r.
Proof.
  exact (acyclic_conversion_terminates splitJoin (λ a, 13 - a) firstRoot ∅ eq_refl).
Defined.

(** ** Worked conversions *)

(** Start -> Split(P) -> {A, B} -> Join(J) -> End *)
Example splitJoin_converts :
  parseBpmnModdle splitJoin 10 firstRoot ∅
  = (Ok {| tree := JObj [("Process", JArr [JObj [("P", JArr [JStr "A"; JStr "B"])]])];
           nodeInfo := {[ "A" := {| label := "A"; concept := "click" |};
                          "B" := {| label := "B"; concept := "type" |};
                          "P" := {| label := "P"; concept := "fork" |} ]} |},
     {[ "A" := {| label := "A"; concept := "click" |};
        "B" := {| label := "B"; concept := "type" |};
        "P" := {| label := "P"; concept := "fork" |} ]}).
Proof. vm_compute. reflexivity. Qed.

(** The branches of P stop at J1 and at J2: nothing is returned, and the
    entries of A and B stay behind. *)
Example twoJoins_fails :
  parseBpmnModdle twoJoins 10 firstRoot ∅
  = (Throw InconsistentJoin,
     {[ "A" := {| label := "A"; concept := "click" |};
        "B" := {| label := "B"; concept := "type" |} ]}).
Proof. vm_compute. reflexivity. Qed.

(** Start -> Sub[Start -> X -> End] -> B -> End: B is the sibling of Sub. *)
Example withSubProcess_converts :
  (parseBpmnModdle withSubProcess 10 firstRoot ∅).1
  = Ok {| tree := JObj [("Process",
                         JArr [JObj [("Flow",
                                      JArr [JObj [("Sub", JArr [JStr "X"])];
                                            JStr "B"])]])];
          nodeInfo := {[ "X" := {| label := "X"; concept := "click" |};
                         "Sub" := {| label := "Sub"; concept := "login" |};
                         "B" := {| label := "B"; concept := "type" |} ]} |}.
Proof. vm_compute. reflexivity. Qed.

(** Start -> Split(X) -> {A -> B, C} -> Join(Y) -> End: the first branch is
    a Flow group, the second a single leaf. *)
Example twoTaskBranch_converts :
  (parseBpmnModdle twoTaskBranch 10 firstRoot ∅).1
  = Ok {| tree := JObj [("Process",
                         JArr [JObj [("X",
                                      JArr [JObj [("Flow",
                                                   JArr [JStr "A"; JStr "B"])];
                                            JStr "C"])]])];
          nodeInfo := {[ "A" := {| label := "A"; concept := "click" |};
                         "B" := {| label := "B"; concept := "type" |};
                         "C" := {| label := "C"; concept := "read" |};
                         "X" := {| label := "X"; concept := "choose" |} ]} |}.
Proof. vm_compute. reflexivity. Qed.

(** * Further properties of the parser *)

(** ** What a conversion writes *)

Section Writes.
Variable h : Heap.

Lemma writes_ret {A} (a : A) : writes (ret a).
Proof. exists (Ok a), ∅. intros t. by rewrite (left_id_L ∅ (∪)). Qed.

Lemma writes_throw {A} x : writes (@throw A x).
Proof. exists (Throw x), ∅. intros t. by rewrite (left_id_L ∅ (∪)). Qed.

Lemma writes_outOfFuel {A} : writes (@outOfFuel A).
Proof. exists OutOfFuel, ∅. intros t. by rewrite (left_id_L ∅ (∪)). Qed.

Lemma writes_lift {A} (o : Outcome A) : writes (lift o).
Proof. exists o, ∅. intros t. by rewrite (left_id_L ∅ (∪)). Qed.

Lemma writes_bind {A B} (m : M A) (k : A → M B) :
  writes m → (∀ a, writes (k a)) → writes (bind m k).
Proof.
  intros (o1 & d1 & Hm) Hk. destruct o1 as [a|x|].
  - destruct (Hk a) as (o2 & d2 & Hka). exists o2, (d2 ∪ d1).
    intros t. unfold bind. rewrite Hm, Hka. by rewrite (assoc_L (∪)).
  - exists (Throw x), d1. intros t. unfold bind. by rewrite Hm.
  - exists OutOfFuel, d1. intros t. unfold bind. by rewrite Hm.
Qed.

Lemma writes_add e : writes (addProcessNodeInfo e).
Proof.
  unfold addProcessNodeInfo. destruct (getProcessNodeInfo e) as [i|x|].
  - exists (Ok ()), (assign (e_id e) i ∅). intros t.
    f_equal. apply assign_union.
  - exists (Throw x), ∅. intros t. by rewrite (left_id_L ∅ (∪)).
  - exists OutOfFuel, ∅. intros t. by rewrite (left_id_L ∅ (∪)).
Qed.

Lemma writes_forEachBranch walk bs acc :
  (∀ target, writes (walk target)) → writes (forEachBranch h walk bs acc).
Proof.
  intros Hw. revert acc. induction bs as [|b bs IH]; intros acc; simpl.
  - apply writes_ret.
  - destruct (h !! b); [|apply writes_throw].
    apply writes_bind; [apply Hw|]. intros [l last]. apply IH.
Qed.

Ltac writes_step :=
  first [ apply writes_ret | apply writes_throw | apply writes_outOfFuel
        | apply writes_lift | apply writes_forEachBranch | apply writes_add
        | apply writes_bind
        | progress intros
        | match goal with
          | x : (_ * _)%type |- _ => destruct x
          | x : Node |- _ => destruct x
          end
        | case_match ].

Lemma writes_all n :
  (∀ self p, writes (parseProcess h n self p)) ∧
  (∀ s ty, writes (parseProcessFlowUntilElement h n s ty)) ∧
  (∀ s ty acc, writes (whileLoop h n s ty acc)) ∧
  (∀ self e, writes (parseProcessSegment h n self e)) ∧
  (∀ self e, writes (parseSplittedControlflow h n self e)).
Proof.
  induction n as [|n (IHp & IHf & IHw & IHs & IHg)].
  - repeat split; intros; apply writes_outOfFuel.
  - repeat split; intros; simpl; repeat writes_step; eauto.
Qed.

Lemma parseBpmnModdle_writes n defs :
  ∃ (o : Outcome Tree) (d : gmap string ProcessTreeNodeInfo), ∀ t,
    parseBpmnModdle h n defs t
    = (match o with
       | Ok tr => Ok {| tree := tr; nodeInfo := d ∪ t |}
       | Throw x => Throw x
       | OutOfFuel => OutOfFuel
       end, d ∪ t).
Proof.
  unfold parseBpmnModdle.
  destruct (deref h (rootElements defs !! 0)) as [[a p]|].
  - destruct (writes_all n) as (Hp & _).
    destruct (Hp a p) as ([[tr last]|x|] & d & Hd).
    + exists (Ok tr), d. intros t. unfold bind. cbn [fst snd]. by rewrite Hd.
    + exists (Throw x), d. intros t. unfold bind. cbn [fst snd]. by rewrite Hd.
    + exists OutOfFuel, d. intros t. unfold bind. cbn [fst snd]. by rewrite Hd.
  - exists (Throw TypeError), ∅. intros t. by rewrite (left_id_L ∅ (∪)).
Qed.
End Writes.

(** X1. Converting the same graph again on the same parser instance gives
    the same outcome, tree and [nodeInfo] included, and leaves the table as
    the first conversion left it. *)
Theorem conversion_idempotent h n defs t :
  parseBpmnModdle h n defs (parseBpmnModdle h n defs t).2
  = parseBpmnModdle h n defs t.
Proof.
  destruct (parseBpmnModdle_writes h n defs) as (o & d & Hd).
  rewrite !Hd. cbn [snd].
  by rewrite (assoc_L (∪)), (idemp_L (∪)).
Qed.

(** X2. Neither the tree nor the failure of a conversion depends on what
    the table held before, and the entries it writes are the same: the
    table afterwards is a fixed set of entries laid over the old table. *)
Theorem conversion_ignores_old_entries h n defs :
  ∃ d : gmap string ProcessTreeNodeInfo, ∀ t,
    (parseBpmnModdle h n defs t).2 = d ∪ t
    ∧ treeOf (parseBpmnModdle h n defs t).1
      = treeOf (parseBpmnModdle h n defs ∅).1.
Proof.
  destruct (parseBpmnModdle_writes h n defs) as (o & d & Hd).
  exists d. intros t. rewrite !Hd. split; [done|]. by destruct o.
Qed.

(** ** More on splits and walks *)

(** X3. The join check of a split compares only the ids of the nodes at
    which branches actually stopped: when all those ids agree the split is
    accepted, however many branches ended without reaching any node, and
    the first stop node is handed back as the node to continue from,
    together with the object in which the fragments were assigned under
    the split's id. *)
Theorem split_accepts_equal_ids h n self gw out results t :
  e_outgoing gw = Some out →
  hasOperation gw = true →
  branchWalk h n (e_type gw) <$> out = Ok <$> results →
  (∀ li lj, li ∈ terminals results → lj ∈ terminals results →
            e_id li.2 = e_id lj.2) →
  (parseSplittedControlflow h (S n) self gw t).1
  = Ok (objectWith (e_id gw) (JArr (branchFragment ∘ fst <$> results)),
        head (terminals results)).
Proof.
  intros Hout Hop Hres Hids.
  rewrite (splitted_results h n self gw out results t Hout Hres).
  rewrite (proj2 (everySameId_spec _) Hids).
  by rewrite (hasOperation_info gw Hop).
Qed.

Lemma split_accepts_equal_ids_witness :
  (parseSplittedControlflow deadEndBranch 4 2
     (node "bpmn:ParallelGateway" "P" (Some "fork") (Some [7; 8])) ∅).1
  = Ok (JObj [("P", JArr [JStr "A"; JStr "B"])],
        Some (5, node "bpmn:ParallelGateway" "J" None None)).
Proof.
  refine (split_accepts_equal_ids deadEndBranch 3 2
            (node "bpmn:ParallelGateway" "P" (Some "fork") (Some [7; 8]))
            [7; 8]
            [([JStr "A"], Some (5, node "bpmn:ParallelGateway" "J" None None));
             ([JStr "B"], None)]
            ∅ eq_refl eq_refl eq_refl _).
  intros li lj Hi Hj.
  apply list_elem_of_singleton in Hi as ->.
  by apply list_elem_of_singleton in Hj as ->.
Defined.

(** X4. A node of a kind [parseProcessSegment] has no case for (an event,
    say) ends the walk without an error: an empty leaf is pushed for it,
    no node is handed back, the table is untouched, and whatever follows
    the node in the flow is left out of the tree. *)
Theorem unsupported_kind_ends_walk h n s ty acc t cur :
  deref h s = Some cur →
  e_type cur.2 ≠ ty →
  supportedKind (e_type cur.2) = false →
  whileLoop h (S (S n)) s ty acc t = (Ok (acc ++ [JStr ""], None), t).
Proof.
  intros Hs Hty Hkind. unfold supportedKind in Hkind.
  apply orb_false_elim in Hkind as [Hkind Hsub].
  apply orb_false_elim in Hkind as [Hkind Hex].
  apply orb_false_elim in Hkind as [Htask Hpar].
  apply bool_decide_eq_false in Htask, Hpar, Hex, Hsub.
  rewrite (whileLoop_no_last h (S n) s ty acc t cur (JStr "") t Hs Hty).
  - done.
  - simpl. rewrite decide_False by done.
    rewrite decide_False by (intros [|]; done).
    by rewrite decide_False.
Qed.

Lemma unsupported_kind_ends_walk_witness :
  whileLoop withEvent 2 (Some 3) "bpmn:EndEvent" [JStr "A"] ∅
  = (Ok ([JStr "A"; JStr ""], None), ∅).
Proof.
  exact (unsupported_kind_ends_walk withEvent 0 (Some 3) "bpmn:EndEvent"
           [JStr "A"] ∅
           (3, node "bpmn:IntermediateCatchEvent" "Timer" None (Some [8]))
           eq_refl ltac:(discriminate) eq_refl).
Defined.

(** The whole conversion of Start -> A -> Timer -> B -> End: B is lost. *)
Example withEvent_converts :
  parseBpmnModdle withEvent 10 firstRoot ∅
  = (Ok {| tree := JObj [("Process",
                          JArr [JObj [("Flow", JArr [JStr "A"; JStr ""])]])];
           nodeInfo := {[ "A" := {| label := "A"; concept := "click" |} ]} |},
     {[ "A" := {| label := "A"; concept := "click" |} ]}).
Proof. vm_compute. reflexivity. Qed.

(** X5. A walk with nothing to parse - it starts at an undefined node, or
    at a node that already is of the termination kind, as the branch of a
    split that leads straight to the join - returns the array holding an
    empty Flow group, hands back where it stood and writes nothing. *)
Theorem empty_walk_is_empty_flow h n s ty t :
  (deref h s = None ∨ ∃ cur, deref h s = Some cur ∧ e_type cur.2 = ty) →
  parseProcessFlowUntilElement h (S (S n)) s ty t
  = (Ok ([JObj [("Flow", JArr [])]], deref h s), t).
Proof.
  intros [Hs|(cur & Hs & Hty)]; rewrite walk_S.
  - by rewrite (whileLoop_undefined h n s ty [] t Hs), Hs.
  - by rewrite (whileLoop_termination h n s ty [] t cur Hs Hty), Hs.
Qed.

Lemma empty_walk_is_empty_flow_witness :
  parseProcessFlowUntilElement splitJoin 2 (Some 5) "bpmn:ParallelGateway" ∅
  = (Ok ([JObj [("Flow", JArr [])]],
         Some (5, node "bpmn:ParallelGateway" "J" None (Some [12]))), ∅).
Proof.
  refine (empty_walk_is_empty_flow splitJoin 0 (Some 5) "bpmn:ParallelGateway" ∅
            (or_intror (ex_intro _
               (5, node "bpmn:ParallelGateway" "J" None (Some [12]))
               (conj eq_refl eq_refl)))).
Defined.

(** X6. Whatever a walk returns is an array of exactly one item, and the
    node it hands back, if any, is a node of the graph of the termination
    kind: a walk never stops at a node of another kind. *)
Theorem walk_result_shape h n s ty t l nx t' :
  parseProcessFlowUntilElement h n s ty t = (Ok (l, nx), t') →
  length l = 1
  ∧ ∀ stop, nx = Some stop → e_type stop.2 = ty ∧ h !! stop.1 = Some stop.2.
Proof.
  intros Hwalk. split.
  - destruct n as [|n]; [done|]. rewrite walk_S in Hwalk.
    destruct (whileLoop h n s ty [] t) as [[[parsed nx']| |] t1]; [|done..].
    injection Hwalk as <- _ _. apply collapse_length.
  - intros stop ->. by eapply walk_stop.
Qed.

Lemma walk_result_shape_witness :
  length [JStr "A"] = 1
  ∧ ∀ stop, Some (5, node "bpmn:ParallelGateway" "J" None (Some [12])) = Some stop →
            e_type stop.2 = "bpmn:ParallelGateway" ∧ splitJoin !! stop.1 = Some stop.2.
Proof.
  exact (walk_result_shape splitJoin 3 (Some 3) "bpmn:ParallelGateway" ∅
           [JStr "A"] (Some (5, node "bpmn:ParallelGateway" "J" None (Some [12])))
           {[ "A" := {| label := "A"; concept := "click" |} ]} eq_refl).
Defined.

(** ** More on the start-flow lookup *)

Section StartLookup.
Variable h : Heap.

Lemma filterSequenceFlows_sound fes : ∀ sfs sf,
  filterSequenceFlows h fes = Ok sfs → sf ∈ sfs →
  sf.1 ∈ fes ∧ h !! sf.1 = Some sf.2 ∧ e_type sf.2 = "bpmn:SequenceFlow".
Proof.
  induction fes as [|a fes IH]; intros sfs sf; simpl.
  - intros [= <-] Hin. by apply elem_of_nil in Hin.
  - destruct (h !! a) as [fe|] eqn:Ea; [|done].
    destruct (filterSequenceFlows h fes) as [rest| |]; [|done..].
    case_decide as Hty; intros [= <-] Hin.
    + apply elem_of_cons in Hin as [->|Hin].
      * repeat split; [by left|done..].
      * destruct (IH rest sf eq_refl Hin) as (? & ? & ?).
        repeat split; [by right|done..].
    + destruct (IH rest sf eq_refl Hin) as (? & ? & ?).
      repeat split; [by right|done..].
Qed.

Lemma findStartFlow_sound sfs : ∀ sf,
  findStartFlow h sfs = Ok (Some sf) →
  sf ∈ sfs
  ∧ ∃ src, deref h (e_sourceRef sf.2) = Some src
           ∧ e_type src.2 = "bpmn:StartEvent".
Proof.
  induction sfs as [|x sfs IH]; intros sf; simpl; [done|].
  destruct (deref h (e_sourceRef x.2)) as [src|] eqn:Esrc; [|done].
  case_decide as Hty.
  - intros [= <-]. split; [by left|by exists src].
  - intros Hf. destruct (IH sf Hf) as [Hin Hsrc]. split; [by right|done].
Qed.

Lemma filterSequenceFlows_app l1 l2 s1 s2 :
  filterSequenceFlows h l1 = Ok s1 → filterSequenceFlows h l2 = Ok s2 →
  filterSequenceFlows h (l1 ++ l2) = Ok (s1 ++ s2).
Proof.
  revert s1. induction l1 as [|a l1 IH]; intros s1; simpl.
  - by intros [= <-].
  - destruct (h !! a) as [fe|]; [|done].
    destruct (filterSequenceFlows h l1) as [rest| |]; [|done..].
    intros H1 H2. rewrite (IH rest eq_refl H2).
    case_decide; by injection H1 as <-.
Qed.

Lemma filterSequenceFlows_passedOver pre :
  forallb (passedOver h) pre = true →
  ∃ sfs, filterSequenceFlows h pre = Ok sfs
         ∧ ∀ rest, findStartFlow h (sfs ++ rest) = findStartFlow h rest.
Proof.
  induction pre as [|a pre IH]; simpl; [by exists []|].
  intros H. apply andb_prop in H as [Ha Hpre].
  destruct (IH Hpre) as (sfs & -> & Hfind).
  unfold passedOver in Ha. destruct (h !! a) as [fe|]; [|done].
  case_decide; [|by exists sfs].
  exists ((a, fe) :: sfs). split; [done|]. intros rest. simpl.
  destruct (deref h (e_sourceRef fe)) as [src|]; [|done].
  apply bool_decide_eq_true in Ha. by rewrite decide_False.
Qed.

Lemma filterSequenceFlows_resolves post :
  forallb (resolves h) post = true → ∃ sfs, filterSequenceFlows h post = Ok sfs.
Proof.
  induction post as [|a post IH]; simpl; [by exists []|].
  intros H. apply andb_prop in H as [Ha Hpost].
  destruct (IH Hpost) as (sfs & ->).
  unfold resolves in Ha. destruct (h !! a) as [fe|]; [|done].
  case_decide; eauto.
Qed.

Lemma getStartFlowOfProcess_split p pre f fl post :
  e_flowElements p = Some (pre ++ f :: post) →
  forallb (passedOver h) pre = true →
  forallb (resolves h) post = true →
  h !! f = Some fl → e_type fl = "bpmn:SequenceFlow" →
  getStartFlowOfProcess h p
  = match deref h (e_sourceRef fl) with
    | None => Throw TypeError
    | Some src =>
        if decide (e_type src.2 = "bpmn:StartEvent") then Ok (Some (f, fl))
        else match filterSequenceFlows h post with
             | Ok sfs => findStartFlow h sfs
             | _ => Throw TypeError
             end
    end.
Proof.
  intros Hfes Hpre Hpost Hf Hty. unfold getStartFlowOfProcess. rewrite Hfes.
  destruct (filterSequenceFlows_passedOver pre Hpre) as (s1 & Hs1 & Hfind).
  destruct (filterSequenceFlows_resolves post Hpost) as (s2 & Hs2).
  assert (filterSequenceFlows h (f :: post) = Ok ((f, fl) :: s2)) as Hmid.
  { simpl. rewrite Hf, Hs2. by rewrite decide_True. }
  rewrite (filterSequenceFlows_app pre (f :: post) s1 _ Hs1 Hmid).
  rewrite Hfind, Hs2. simpl.
  destruct (deref h (e_sourceRef fl)); [|done]. by case_decide.
Qed.
End StartLookup.

(** X7. A start flow the lookup returns is one of the process's own flow
    elements, is a sequence flow, and leaves a Start event. *)
Theorem start_flow_sound h p sf :
  getStartFlowOfProcess h p = Ok (Some sf) →
  (∃ fes, e_flowElements p = Some fes ∧ sf.1 ∈ fes)
  ∧ h !! sf.1 = Some sf.2
  ∧ e_type sf.2 = "bpmn:SequenceFlow"
  ∧ ∃ src, deref h (e_sourceRef sf.2) = Some src
           ∧ e_type src.2 = "bpmn:StartEvent".
Proof.
  unfold getStartFlowOfProcess.
  destruct (e_flowElements p) as [fes|]; [|done].
  destruct (filterSequenceFlows h fes) as [sfs| |] eqn:Ef; [|done..].
  intros Hfind. apply findStartFlow_sound in Hfind as [Hin Hsrc].
  destruct (filterSequenceFlows_sound h _ _ _ Ef Hin) as (Hmem & Hlook & Hty).
  split; [by exists fes|]. done.
Qed.

Lemma start_flow_sound_witness :
  (∃ fes,
     e_flowElements
       (container "bpmn:Process" "Process_1" None None [1; 2; 3; 4; 5])
     = Some fes ∧ (4, flow "f1" 1 2).1 ∈ fes)
  ∧ startAEnd !! (4, flow "f1" 1 2).1 = Some (4, flow "f1" 1 2).2
  ∧ e_type (4, flow "f1" 1 2).2 = "bpmn:SequenceFlow"
  ∧ ∃ src, deref startAEnd (e_sourceRef (4, flow "f1" 1 2).2) = Some src
           ∧ e_type src.2 = "bpmn:StartEvent".
Proof.
  exact (start_flow_sound startAEnd
           (container "bpmn:Process" "Process_1" None None [1; 2; 3; 4; 5])
           (4, flow "f1" 1 2) eq_refl).
Defined.

(** X8. Among several flows that leave a Start event the lookup takes the
    first in the order of [flowElements]: the flow elements before it are
    passed over and the sources of those after it are never read. *)
Theorem first_start_flow_wins h p pre f fl src post :
  e_flowElements p = Some (pre ++ f :: post) →
  forallb (passedOver h) pre = true →
  forallb (resolves h) post = true →
  h !! f = Some fl → e_type fl = "bpmn:SequenceFlow" →
  deref h (e_sourceRef fl) = Some src → e_type src.2 = "bpmn:StartEvent" →
  getStartFlowOfProcess h p = Ok (Some (f, fl)).
Proof.
  intros Hfes Hpre Hpost Hf Hty Hsrc Hstart.
  rewrite (getStartFlowOfProcess_split h p pre f fl post Hfes Hpre Hpost Hf Hty).
  rewrite Hsrc. by rewrite decide_True.
Qed.

Lemma first_start_flow_wins_witness :
  getStartFlowOfProcess twoStarts
    (container "bpmn:Process" "Process_1" None None [1; 2; 3; 4; 5; 6; 7])
  = Ok (Some (5, flow "s1" 1 2)).
Proof.
  exact (first_start_flow_wins twoStarts
           (container "bpmn:Process" "Process_1" None None [1; 2; 3; 4; 5; 6; 7])
           [1; 2; 3; 4] 5 (flow "s1" 1 2)
           (1, node "bpmn:StartEvent" "Start" None (Some [5; 6])) [6; 7]
           eq_refl eq_refl eq_refl eq_refl eq_refl eq_refl eq_refl).
Defined.

(** X9. A sequence flow without a source, listed before any start flow,
    is not skipped: reading the kind of its source throws, so
    [parseProcess] aborts with a TypeError instead of finding the start
    flow behind it or reporting MalformedGraph, and writes nothing. *)
Theorem sourceless_flow_throws h p pre f fl post n self t :
  e_flowElements p = Some (pre ++ f :: post) →
  forallb (passedOver h) pre = true →
  forallb (resolves h) post = true →
  h !! f = Some fl → e_type fl = "bpmn:SequenceFlow" →
  deref h (e_sourceRef fl) = None →
  getStartFlowOfProcess h p = Throw TypeError
  ∧ parseProcess h (S n) self p t = (Throw TypeError, t).
Proof.
  intros Hfes Hpre Hpost Hf Hty Hsrc.
  assert (getStartFlowOfProcess h p = Throw TypeError) as Hlookup.
  { rewrite (getStartFlowOfProcess_split h p pre f fl post
               Hfes Hpre Hpost Hf Hty). by rewrite Hsrc. }
  split; [done|].
  rewrite parseProcess_start. unfold startTarget. by rewrite Hlookup.
Qed.

Lemma sourceless_flow_throws_witness :
  getStartFlowOfProcess danglingFlow
    (container "bpmn:Process" "Process_1" None None [1; 2; 3; 4; 5])
  = Throw TypeError
  ∧ parseProcess danglingFlow 1 0
      (container "bpmn:Process" "Process_1" None None [1; 2; 3; 4; 5]) ∅
    = (Throw TypeError, ∅).
Proof.
  exact (sourceless_flow_throws danglingFlow
           (container "bpmn:Process" "Process_1" None None [1; 2; 3; 4; 5])
           [1; 2; 3] 4
           {| e_type := "bpmn:SequenceFlow"; e_id := "loose"; e_name := None;
              e_attrs := Some ∅; e_outgoing := None; e_flowElements := None;
              e_sourceRef := None; e_targetRef := Some 3 |}
           [5] 0 0 ∅
           eq_refl eq_refl eq_refl eq_refl eq_refl eq_refl).
Defined.

(** ** The shape of the result *)

Section Shape.
Variable h : Heap.
Variable strict : bool.
Hypothesis plain : strict = true → noProtoId h = true.

Lemma plain_lookup a e : strict = true → h !! a = Some e → e_id e ≠ "__proto__".
Proof.
  intros Hs Ha. pose proof (plain Hs) as Hall. unfold noProtoId in Hall.
  rewrite forallb_forall in Hall.
  eapply bool_decide_eq_true_1, Hall, list_elem_of_In, list_elem_of_lookup_2.
  exact Ha.
Qed.

Lemma shaped_objectWith k items :
  (strict = true → k ≠ "__proto__") →
  forallb (shaped strict) items = true →
  shaped strict (objectWith k (JArr items)) = true.
Proof.
  intros Hk Hitems. unfold objectWith. case_decide as Hproto; [|done].
  simpl. destruct strict; [|done]. by destruct (Hk eq_refl).
Qed.

Lemma shaped_collapse l :
  forallb (shaped strict) l = true → forallb (shaped strict) (collapse l) = true.
Proof.
  intros Hl. unfold collapse. case_decide; [done|]. simpl. by rewrite Hl.
Qed.

Lemma shaped_branchFragment l :
  length l = 1 → forallb (shaped strict) l = true →
  shaped strict (branchFragment l) = true.
Proof.
  intros Hlen Hl. unfold branchFragment. rewrite decide_True by done.
  destruct l as [|x l]; [done|]. simpl in Hl. by apply andb_prop in Hl as [-> _].
Qed.

Lemma shaped_forEachBranch walk bs : ∀ acc,
  (∀ target,
     post (λ r : list Tree * option Node,
             length r.1 = 1 ∧ forallb (shaped strict) r.1 = true) (walk target)) →
  forallb (shaped strict) acc.1 = true →
  post (λ r : list Tree * list Node, forallb (shaped strict) r.1 = true)
       (forEachBranch h walk bs acc).
Proof.
  induction bs as [|b bs IH]; intros acc Hw Hacc; simpl.
  - by apply post_ret.
  - destruct (h !! b); [|apply post_throw].
    eapply post_bind; [apply Hw|]. intros [l last] [Hlen Hl]. apply IH; [done|].
    unfold pushBranch. simpl. rewrite forallb_app, Hacc. simpl.
    by rewrite shaped_branchFragment.
Qed.

Lemma shaped_all n :
  (∀ self p, h !! self = Some p →
     post (λ r, shaped strict r.1 = true) (parseProcess h n self p)) ∧
  (∀ s ty, post (λ r, length r.1 = 1 ∧ forallb (shaped strict) r.1 = true)
                (parseProcessFlowUntilElement h n s ty)) ∧
  (∀ s ty acc, forallb (shaped strict) acc = true →
               post (λ r, forallb (shaped strict) r.1 = true)
                    (whileLoop h n s ty acc)) ∧
  (∀ self e, h !! self = Some e →
     post (λ r, shaped strict r.1 = true) (parseProcessSegment h n self e)) ∧
  (∀ self e, h !! self = Some e →
     post (λ r, shaped strict r.1 = true) (parseSplittedControlflow h n self e)).
Proof.
  induction n as [|n (IHp & IHf & IHw & IHs & IHg)].
  { split; [|split; [|split; [|split]]]; intros; apply post_outOfFuel. }
  split; [|split; [|split; [|split]]].
  - intros self p Hp. simpl.
    eapply post_bind; [apply post_true|]. intros [sf|] _; [|apply post_throw].
    destruct (deref h (e_targetRef sf.2)) as [target|]; [|apply post_throw].
    eapply post_bind; [apply IHf|]. intros [treePart last] [_ Hshaped].
    destruct (hasOperation p).
    + eapply post_bind; [apply post_true|]. intros _ _. apply post_ret.
      apply shaped_objectWith; [|done]. intros Hs. by eapply plain_lookup.
    + apply post_ret. by apply shaped_objectWith.
  - intros s ty. simpl. eapply post_bind; [by apply IHw|].
    intros [parsed nx] Hshaped. apply post_ret. split.
    + apply collapse_length.
    + by apply shaped_collapse.
  - intros s ty acc Hacc. simpl.
    destruct (deref h s) as [[a e]|] eqn:E; [|by apply post_ret].
    apply deref_Some in E as [_ E].
    case_decide; [by apply post_ret|].
    eapply post_bind; [by apply IHs|]. intros [frag last] Hfrag.
    assert (forallb (shaped strict) (acc ++ [frag]) = true) as Hacc'.
    { rewrite forallb_app, Hacc. simpl. simpl in Hfrag. by rewrite Hfrag. }
    destruct last as [le|]; [|by apply IHw].
    destruct (e_outgoing le.2) as [out|]; [|by apply IHw].
    destruct (deref h (out !! 0)); [by apply IHw|apply post_throw].
  - intros self e He. simpl.
    case_decide.
    { eapply post_bind; [apply post_true|]. intros _ _. by apply post_ret. }
    case_decide; [by apply IHg|].
    case_decide; [by apply IHp|by apply post_ret].
  - intros self e He. simpl.
    destruct (e_outgoing e) as [out|]; [|apply post_throw].
    eapply post_bind; [apply shaped_forEachBranch; [intros; apply IHf|done]|].
    intros [frs lasts] Hfrs.
    destruct (everySameId lasts); [|apply post_throw].
    eapply post_bind; [apply post_true|]. intros _ _. apply post_ret.
    apply shaped_objectWith; [|done]. intros Hs. by eapply plain_lookup.
Qed.

Lemma shaped_parseBpmnModdle n defs t pt t' :
  parseBpmnModdle h n defs t = (Ok pt, t') → shaped strict (tree pt) = true.
Proof.
  unfold parseBpmnModdle.
  destruct (deref h (rootElements defs !! 0)) as [[a p]|] eqn:E; [|done].
  apply deref_Some in E as [_ E].
  intros Hb. apply bind_Ok in Hb as ([tr last] & t1 & Hp & Hk).
  injection Hk as <- _. simpl.
  destruct (shaped_all n) as (Hall & _).
  exact (Hall a p E t _ _ Hp).
Qed.
End Shape.

Lemma parseBpmnModdle_object h n defs t pt t' :
  parseBpmnModdle h n defs t = (Ok pt, t') → isObject (tree pt) = true.
Proof.
  unfold parseBpmnModdle.
  destruct (deref h (rootElements defs !! 0)) as [[a p]|]; [|done].
  intros Hb. apply bind_Ok in Hb as ([tr last] & t1 & Hp & Hk).
  injection Hk as <- _. simpl.
  apply parseProcess_own in Hp as [_ [inner Hp]]. simpl in Hp. by subst tr.
Qed.

(** X10. Every tree a conversion returns has the nested shape consumers
    rely on: it is an object, and every object in it has at most one key,
    whose value is an array of strings and of objects of the same shape;
    arrays never nest directly.  When no element of the graph has the id
    [__proto__], every object has exactly one key; an object without key
    stems from an assignment under that id. *)
Theorem result_tree_shaped h n defs t pt t' :
  parseBpmnModdle h n defs t = (Ok pt, t') →
  isObject (tree pt) = true
  ∧ shaped false (tree pt) = true
  ∧ (noProtoId h = true → shaped true (tree pt) = true).
Proof.
  intros Hrun. split; [by eapply parseBpmnModdle_object|]. split.
  - by eapply (shaped_parseBpmnModdle h false).
  - intros Hplain. by eapply (shaped_parseBpmnModdle h true).
Qed.

Lemma result_tree_shaped_witness :
  isObject (JObj [("Process", JArr [JObj [("P", JArr [JStr "A"; JStr "B"])]])])
  = true
  ∧ shaped false
      (JObj [("Process", JArr [JObj [("P", JArr [JStr "A"; JStr "B"])]])])
    = true
  ∧ (noProtoId splitJoin = true →
     shaped true
       (JObj [("Process", JArr [JObj [("P", JArr [JStr "A"; JStr "B"])]])])
     = true).
Proof.
  exact (result_tree_shaped splitJoin 10 firstRoot ∅
           {| tree := JObj [("Process",
                             JArr [JObj [("P", JArr [JStr "A"; JStr "B"])]])];
              nodeInfo := {[ "A" := {| label := "A"; concept := "click" |};
                             "B" := {| label := "B"; concept := "type" |};
                             "P" := {| label := "P"; concept := "fork" |} ]} |}
           {[ "A" := {| label := "A"; concept := "click" |};
              "B" := {| label := "B"; concept := "type" |};
              "P" := {| label := "P"; concept := "fork" |} ]}
           splitJoin_converts).
Defined.

(** ** The tree and the table agree *)

Section Coverage.
Variable h : Heap.

Lemma covered_mono t t' tr :
  (∀ k, is_Some (t !! k) → is_Some (t' !! k)) → covered t tr → covered t' tr.
Proof.
  intros Hgrow Hc k Hk. destruct (Hc k Hk) as [?|[?|[?|[?|?]]]]; auto 6.
Qed.

Lemma Forall_covered_mono t t' l :
  (∀ k, is_Some (t !! k) → is_Some (t' !! k)) →
  Forall (covered t) l → Forall (covered t') l.
Proof. intros Hgrow. apply Forall_impl. intros tr. by apply covered_mono. Qed.

Lemma keeps_grows {A} (m : M A) t o t1 :
  keeps h m → m t = (o, t1) → ∀ k, is_Some (t !! k) → is_Some (t1 !! k).
Proof.
  intros Hm Hrun k. apply (extends_is_Some h). specialize (Hm t).
  by rewrite Hrun in Hm.
Qed.

Lemma assign_covers (t : gmap string ProcessTreeNodeInfo) k v :
  k = "__proto__" ∨ is_Some (assign k v t !! k).
Proof.
  unfold assign. case_decide; [by left|]. right.
  rewrite lookup_insert_eq. eauto.
Qed.

Lemma covered_group t k items :
  k = "" ∨ k = "Flow" ∨ k = "Process" ∨ k = "__proto__" ∨ is_Some (t !! k) →
  Forall (covered t) items → covered t (JObj [(k, JArr items)]).
Proof.
  intros Hk Hitems k' Hin. simpl in Hin. rewrite app_nil_r in Hin.
  destruct Hin as [<-|Hin]; [done|].
  apply in_flat_map in Hin as (x & Hx & Hin).
  rewrite Forall_forall in Hitems.
  exact (Hitems x Hx k' Hin).
Qed.

Lemma covered_objectWith t k items :
  k = "" ∨ k = "Flow" ∨ k = "Process" ∨ k = "__proto__" ∨ is_Some (t !! k) →
  Forall (covered t) items → covered t (objectWith k (JArr items)).
Proof.
  intros Hk Hitems. unfold objectWith. case_decide; [by intros k' []|].
  by apply covered_group.
Qed.

Lemma covered_collapse t l :
  Forall (covered t) l → Forall (covered t) (collapse l).
Proof.
  intros Hl. unfold collapse. case_decide; [done|].
  apply Forall_singleton, covered_group; auto.
Qed.

Lemma covered_branchFragment t l :
  Forall (covered t) l → covered t (branchFragment l).
Proof.
  intros Hl. unfold branchFragment. case_decide.
  - destruct l as [|x l]; [by intros k []|]. by apply Forall_inv in Hl.
  - intros k Hin. simpl in Hin. apply in_flat_map in Hin as (x & Hx & Hin).
    rewrite Forall_forall in Hl.
    exact (Hl x Hx k Hin).
Qed.

Lemma covered_forEachBranch walk bs : ∀ acc t r t',
  (∀ target, keeps h (walk target)) →
  (∀ target t r t', walk target t = (Ok r, t') → Forall (covered t') r.1) →
  Forall (covered t) acc.1 →
  forEachBranch h walk bs acc t = (Ok r, t') → Forall (covered t') r.1.
Proof.
  induction bs as [|b bs IH]; intros acc t r t' Hkeeps Hwalk Hacc; simpl.
  - by intros [= <- <-].
  - destruct (h !! b) as [branch|]; [|done].
    intros Hb. apply bind_Ok in Hb as ([l last] & t1 & Hrun & Hrest).
    apply (IH _ _ _ _ Hkeeps Hwalk) in Hrest; [done|].
    unfold pushBranch. simpl. apply Forall_app. split.
    + eapply Forall_covered_mono; [|exact Hacc].
      by eapply keeps_grows.
    + apply Forall_singleton, covered_branchFragment.
      exact (Hwalk _ _ _ _ Hrun).
Qed.

Lemma covered_all n :
  (∀ self p t r t', h !! self = Some p →
     parseProcess h n self p t = (Ok r, t') → covered t' r.1) ∧
  (∀ s ty t r t',
     parseProcessFlowUntilElement h n s ty t = (Ok r, t') →
     Forall (covered t') r.1) ∧
  (∀ s ty acc t r t', Forall (covered t) acc →
     whileLoop h n s ty acc t = (Ok r, t') → Forall (covered t') r.1) ∧
  (∀ self e t r t', h !! self = Some e →
     parseProcessSegment h n self e t = (Ok r, t') → covered t' r.1) ∧
  (∀ self e t r t', h !! self = Some e →
     parseSplittedControlflow h n self e t = (Ok r, t') → covered t' r.1).
Proof.
  induction n as [|n (IHp & IHf & IHw & IHs & IHg)].
  { split; [|split; [|split; [|split]]]; intros; done. }
  destruct (keeps_all h n) as (Kp & Kf & Kw & Ks & Kg).
  split; [|split; [|split; [|split]]].
  - intros self p t r t' Hp. rewrite parseProcess_start.
    destruct (startTarget h p) as [[target|]| |]; try done.
    destruct (parseProcessFlowUntilElement h n (Some target.1) "bpmn:EndEvent" t)
      as [[[treePart last]| |] t1] eqn:Hwalk; try done.
    simpl. intros [= <- <-]. simpl.
    apply IHf in Hwalk. simpl in Hwalk. unfold rootKey.
    destruct (hasOperation p).
    + apply covered_objectWith.
      * do 3 right. apply assign_covers.
      * eapply Forall_covered_mono; [apply assign_grows|done].
    + apply covered_objectWith; auto.
  - intros s ty t r t'. rewrite walk_S.
    destruct (whileLoop h n s ty [] t) as [[[parsed nx]| |] t1] eqn:Hloop;
      try done.
    intros [= <- <-]. simpl. apply covered_collapse.
    by apply (IHw _ _ _ _ _ _ (Forall_nil_2 _) Hloop).
  - intros s ty acc t r t' Hacc. simpl.
    destruct (deref h s) as [[a e]|] eqn:E; [|by intros [= <- <-]].
    apply deref_Some in E as [_ E].
    case_decide; [by intros [= <- <-]|].
    intros Hb. apply bind_Ok in Hb as ([frag last] & t1 & Hseg & Hrest).
    cbn [fst snd] in Hseg.
    assert (Forall (covered t1) (acc ++ [frag])) as Hacc'.
    { apply Forall_app. split.
      - eapply Forall_covered_mono; [|exact Hacc].
        eapply keeps_grows; [by apply Ks|exact Hseg].
      - apply Forall_singleton. exact (IHs _ _ _ _ _ E Hseg). }
    destruct last as [le|]; [|by eapply IHw].
    destruct (e_outgoing le.2) as [out|]; [|by eapply IHw].
    destruct (deref h (out !! 0)); [by eapply IHw|done].
  - intros self e t r t' He. simpl.
    case_decide.
    { intros Hb. apply bind_Ok in Hb as ([] & t1 & Hadd & Hret).
      injection Hret as <- <-. simpl.
      unfold addProcessNodeInfo in Hadd.
      destruct (getProcessNodeInfo e) as [i| |]; [|done..].
      injection Hadd as <-. intros k [<-|[]].
      do 3 right. apply assign_covers. }
    case_decide; [by apply IHg|].
    case_decide; [by apply IHp|].
    intros [= <- <-]. intros k [<-|[]]. by left.
  - intros self e t r t' He. simpl.
    destruct (e_outgoing e) as [out|]; [|done].
    intros Hb. apply bind_Ok in Hb as ([frs lasts] & t1 & Hfor & Hrest).
    apply covered_forEachBranch in Hfor;
      [|intros; apply Kf|intros target t0 r0 t0' Hw; exact (IHf _ _ _ _ _ Hw)
       |done].
    simpl in Hfor.
    destruct (everySameId lasts); [|done].
    apply bind_Ok in Hrest as ([] & t2 & Hadd & Hret).
    injection Hret as <- <-. simpl.
    unfold addProcessNodeInfo in Hadd.
    destruct (getProcessNodeInfo e) as [i| |]; [|done..].
    injection Hadd as <-. apply covered_objectWith.
    + do 3 right. apply assign_covers.
    + eapply Forall_covered_mono; [apply assign_grows|done].
Qed.
End Coverage.

(** X11. The tree and the table a conversion returns agree: every leaf and
    every key of the tree is the empty leaf of an unsupported node, one of
    the structural keys "Flow" and "Process", the id [__proto__] - under
    which the table takes no entry - or has an entry in the returned
    [nodeInfo]. *)
Theorem tree_names_have_info h n defs t pt t' :
  parseBpmnModdle h n defs t = (Ok pt, t') →
  ∀ k, In k (names (tree pt)) →
       k = "" ∨ k = "Flow" ∨ k = "Process" ∨ k = "__proto__"
       ∨ is_Some (nodeInfo pt !! k).
Proof.
  intros Hrun. rewrite (parseBpmnModdle_nodeInfo _ _ _ _ _ _ Hrun).
  revert Hrun. unfold parseBpmnModdle.
  destruct (deref h (rootElements defs !! 0)) as [[a p]|] eqn:E; [|done].
  apply deref_Some in E as [_ E].
  intros Hb. apply bind_Ok in Hb as ([tr last] & t1 & Hp & Hk).
  injection Hk as <- <-. simpl.
  destruct (covered_all h n) as (Hall & _).
  exact (Hall a p t _ _ E Hp).
Qed.

Lemma tree_names_have_info_witness :
  "P" = "" ∨ "P" = "Flow" ∨ "P" = "Process" ∨ "P" = "__proto__"
  ∨ is_Some (({[ "A" := {| label := "A"; concept := "click" |};
                 "B" := {| label := "B"; concept := "type" |};
                 "P" := {| label := "P"; concept := "fork" |} ]}
              : gmap string ProcessTreeNodeInfo) !! "P").
Proof.
  exact (tree_names_have_info splitJoin 10 firstRoot ∅
           {| tree := JObj [("Process",
                             JArr [JObj [("P", JArr [JStr "A"; JStr "B"])]])];
              nodeInfo := {[ "A" := {| label := "A"; concept := "click" |};
                             "B" := {| label := "B"; concept := "type" |};
                             "P" := {| label := "P"; concept := "fork" |} ]} |}
           {[ "A" := {| label := "A"; concept := "click" |};
              "B" := {| label := "B"; concept := "type" |};
              "P" := {| label := "P"; concept := "fork" |} ]}
           splitJoin_converts "P" (or_intror (or_introl eq_refl))).
Defined.

(** ** Printing an element *)

(** X12. [elementToString] agrees with the label the table stores for a
    named element; for an element without a name, or with an empty one, it
    is that label - the id - followed by the kind in parentheses.  The kind
    of a named element is never printed. *)
Theorem elementToString_label e :
  (∀ n, e_name e = Some n → n ≠ "" →
        elementToString e = n ∧ labelOf e = n)
  ∧ ((e_name e = None ∨ e_name e = Some "") →
     labelOf e = e_id e
     ∧ elementToString e = labelOf e +:+ " (" +:+ e_type e +:+ ")").
Proof.
  unfold elementToString, labelOf. split.
  - intros n -> Hn. by rewrite !decide_False.
  - by intros [-> | ->].
Qed.

Lemma elementToString_label_witness :
  (elementToString
     (mkElement "bpmn:Task" "T1" (Some "Login") (Some ∅) None None None None)
   = "Login"
   ∧ labelOf
       (mkElement "bpmn:Task" "T1" (Some "Login") (Some ∅) None None None None)
     = "Login")
  ∧ labelOf (node "bpmn:Task" "A" (Some "click") (Some [5])) = "A"
  ∧ elementToString (node "bpmn:Task" "A" (Some "click") (Some [5]))
    = "A (bpmn:Task)".
Proof.
  split.
  - exact (proj1 (elementToString_label
                    (mkElement "bpmn:Task" "T1" (Some "Login") (Some ∅) None None
                       None None))
                 "Login" eq_refl ltac:(discriminate)).
  - exact (proj2 (elementToString_label
                    (node "bpmn:Task" "A" (Some "click") (Some [5])))
                 (or_introl eq_refl)).
Defined.

(** ** Where the names of the tree come from *)

Section Provenance.
Variable h : Heap.

Lemma sourced_leaf a e :
  h !! a = Some e → e_type e = "bpmn:Task" → hasOperation e = true →
  sourced h (JStr (e_id e)).
Proof.
  intros Ha Hty Hop. split.
  - intros s [<-|[]]. right. by exists a, e.
  - by intros k [].
Qed.

Lemma sourced_empty_leaf : sourced h (JStr "").
Proof. split; [intros s [<-|[]]; by left|by intros k []]. Qed.

Lemma sourced_group k items :
  (k = "Flow" ∨ k = "Process"
   ∨ ∃ a e, h !! a = Some e ∧ e_id e = k ∧ hasOperation e = true) →
  Forall (sourced h) items → sourced h (JObj [(k, JArr items)]).
Proof.
  intros Hk Hitems. rewrite Forall_forall in Hitems. split.
  - intros s Hin. simpl in Hin. rewrite app_nil_r in Hin.
    apply in_flat_map in Hin as (x & Hx & Hin).
    exact (proj1 (Hitems x Hx) s Hin).
  - intros k' Hin. simpl in Hin. rewrite app_nil_r in Hin.
    destruct Hin as [<-|Hin]; [done|].
    apply in_flat_map in Hin as (x & Hx & Hin).
    exact (proj2 (Hitems x Hx) k' Hin).
Qed.

Lemma sourced_objectWith k items :
  (k = "Flow" ∨ k = "Process"
   ∨ ∃ a e, h !! a = Some e ∧ e_id e = k ∧ hasOperation e = true) →
  Forall (sourced h) items → sourced h (objectWith k (JArr items)).
Proof.
  intros Hk Hitems. unfold objectWith. case_decide; [|by apply sourced_group].
  split; by intros ? [].
Qed.

Lemma sourced_collapse l :
  Forall (sourced h) l → Forall (sourced h) (collapse l).
Proof.
  intros Hl. unfold collapse. case_decide; [done|].
  apply Forall_singleton, sourced_group; auto.
Qed.

Lemma sourced_branchFragment l :
  Forall (sourced h) l → sourced h (branchFragment l).
Proof.
  intros Hl. unfold branchFragment. case_decide.
  - destruct l as [|x l]; [by split; intros k []|]. by apply Forall_inv in Hl.
  - rewrite Forall_forall in Hl. split.
    + intros s Hin. simpl in Hin. apply in_flat_map in Hin as (x & Hx & Hin).
      exact (proj1 (Hl x Hx) s Hin).
    + intros k Hin. simpl in Hin. apply in_flat_map in Hin as (x & Hx & Hin).
      exact (proj2 (Hl x Hx) k Hin).
Qed.

Lemma sourced_forEachBranch walk bs : ∀ acc,
  (∀ target, post (λ r : list Tree * option Node, Forall (sourced h) r.1)
                  (walk target)) →
  Forall (sourced h) acc.1 →
  post (λ r : list Tree * list Node, Forall (sourced h) r.1)
       (forEachBranch h walk bs acc).
Proof.
  induction bs as [|b bs IH]; intros acc Hw Hacc; simpl.
  - by apply post_ret.
  - destruct (h !! b); [|apply post_throw].
    eapply post_bind; [apply Hw|]. intros [l last] Hl. apply IH; [done|].
    unfold pushBranch. simpl. apply Forall_app. split; [done|].
    by apply Forall_singleton, sourced_branchFragment.
Qed.

Lemma sourced_all n :
  (∀ self p, h !! self = Some p →
     post (λ r, sourced h r.1) (parseProcess h n self p)) ∧
  (∀ s ty, post (λ r, Forall (sourced h) r.1)
                (parseProcessFlowUntilElement h n s ty)) ∧
  (∀ s ty acc, Forall (sourced h) acc →
               post (λ r, Forall (sourced h) r.1) (whileLoop h n s ty acc)) ∧
  (∀ self e, h !! self = Some e →
     post (λ r, sourced h r.1) (parseProcessSegment h n self e)) ∧
  (∀ self e, h !! self = Some e →
     post (λ r, sourced h r.1) (parseSplittedControlflow h n self e)).
Proof.
  induction n as [|n (IHp & IHf & IHw & IHs & IHg)].
  { split; [|split; [|split; [|split]]]; intros; apply post_outOfFuel. }
  split; [|split; [|split; [|split]]].
  - intros self p Hp. simpl.
    eapply post_bind; [apply post_true|]. intros [sf|] _; [|apply post_throw].
    destruct (deref h (e_targetRef sf.2)) as [target|]; [|apply post_throw].
    eapply post_bind; [apply IHf|]. intros [treePart last] Hpart.
    destruct (hasOperation p) eqn:Hop.
    + eapply post_bind; [apply post_true|]. intros _ _. apply post_ret.
      apply sourced_objectWith; [|done]. do 2 right. by exists self, p.
    + apply post_ret. apply sourced_objectWith; auto.
  - intros s ty. simpl. eapply post_bind; [by apply IHw|].
    intros [parsed nx] Hparsed. apply post_ret. by apply sourced_collapse.
  - intros s ty acc Hacc. simpl.
    destruct (deref h s) as [[a e]|] eqn:E; [|by apply post_ret].
    apply deref_Some in E as [_ E].
    case_decide; [by apply post_ret|].
    eapply post_bind; [by apply IHs|]. intros [frag last] Hfrag.
    assert (Forall (sourced h) (acc ++ [frag])) as Hacc'.
    { apply Forall_app. split; [done|]. by apply Forall_singleton. }
    destruct last as [le|]; [|by apply IHw].
    destruct (e_outgoing le.2) as [out|]; [|by apply IHw].
    destruct (deref h (out !! 0)); [by apply IHw|apply post_throw].
  - intros self e He. simpl.
    case_decide as Hty.
    { eapply post_bind; [apply post_add_bound|]. intros u Hop. simpl in Hop.
      apply post_ret. by apply (sourced_leaf self). }
    case_decide; [by apply IHg|].
    case_decide; [by apply IHp|apply post_ret, sourced_empty_leaf].
  - intros self e He. simpl.
    destruct (e_outgoing e) as [out|]; [|apply post_throw].
    eapply post_bind; [apply sourced_forEachBranch; [intros; apply IHf|done]|].
    intros [frs lasts] Hfrs.
    destruct (everySameId lasts); [|apply post_throw].
    eapply post_bind; [apply post_add_bound|]. intros u Hop. simpl in Hop.
    apply post_ret.
    apply sourced_objectWith; [|done]. do 2 right. by exists self, e.
Qed.
End Provenance.

(** X13. Nothing in the tree is invented: every leaf is the id of a Task of
    the graph that carries an operation, or the empty leaf of an
    unsupported node, and every key is "Flow", "Process" or the id of an
    element of the graph that carries an operation. *)
Theorem tree_names_from_graph h n defs t pt t' :
  parseBpmnModdle h n defs t = (Ok pt, t') → sourced h (tree pt).
Proof.
  unfold parseBpmnModdle.
  destruct (deref h (rootElements defs !! 0)) as [[a p]|] eqn:E; [|done].
  apply deref_Some in E as [_ E].
  intros Hb. apply bind_Ok in Hb as ([tr last] & t1 & Hp & Hk).
  injection Hk as <- _. simpl.
  destruct (sourced_all h n) as (Hall & _).
  exact (Hall a p E t _ _ Hp).
Qed.

Lemma tree_names_from_graph_witness :
  sourced splitJoin
    (JObj [("Process", JArr [JObj [("P", JArr [JStr "A"; JStr "B"])]])]).
Proof.
  exact (tree_names_from_graph splitJoin 10 firstRoot ∅
           {| tree := JObj [("Process",
                             JArr [JObj [("P", JArr [JStr "A"; JStr "B"])]])];
              nodeInfo := {[ "A" := {| label := "A"; concept := "click" |};
                             "B" := {| label := "B"; concept := "type" |};
                             "P" := {| label := "P"; concept := "fork" |} ]} |}
           {[ "A" := {| label := "A"; concept := "click" |};
              "B" := {| label := "B"; concept := "type" |};
              "P" := {| label := "P"; concept := "fork" |} ]}
           splitJoin_converts).
Defined.

(** ** Failing branches and dead ends *)

Lemma forEachBranch_throws h n ty pre : ∀ results b post x acc t,
  branchWalk h n ty <$> pre = Ok <$> results →
  branchWalk h n ty b = Throw x →
  (forEachBranch h (λ target, parseProcessFlowUntilElement h n target ty)
     (pre ++ b :: post) acc t).1 = Throw x.
Proof.
  induction pre as [|a pre IH]; intros results b post x acc t Hpre Hb.
  - simpl. unfold branchWalk in Hb.
    destruct (h !! b) as [branch|]; [|by injection Hb as <-].
    rewrite <- (walk_indep h n _ ty t) in Hb. unfold bind.
    destruct (parseProcessFlowUntilElement h n (e_targetRef branch) ty t)
      as [o t1].
    simpl in Hb. by subst o.
  - destruct results as [|[l last] results]; [done|].
    injection Hpre as Ha Hpre. unfold branchWalk in Ha. simpl.
    destruct (h !! a) as [branch|]; [|done].
    rewrite <- (walk_indep h n _ ty t) in Ha. unfold bind.
    destruct (parseProcessFlowUntilElement h n (e_targetRef branch) ty t)
      as [o t1].
    simpl in Ha. subst o. by eapply IH.
Qed.

(** X14. The branches of a split are walked in the order of its outgoing
    flows and the first one that fails decides the outcome: its error is
    the split's error, whatever the later branches or the join check would
    have produced. *)
Theorem first_failing_branch_decides h n self gw pre b post results x t :
  e_outgoing gw = Some (pre ++ b :: post) →
  branchWalk h n (e_type gw) <$> pre = Ok <$> results →
  branchWalk h n (e_type gw) b = Throw x →
  (parseSplittedControlflow h (S n) self gw t).1 = Throw x.
Proof.
  intros Hout Hpre Hb. simpl. rewrite Hout. unfold bind.
  pose proof (forEachBranch_throws h n (e_type gw) pre results b post x
                ([], []) t Hpre Hb) as Hfor.
  destruct (forEachBranch h
              (λ target, parseProcessFlowUntilElement h n target (e_type gw))
              (pre ++ b :: post) ([], []) t) as [o t1].
  simpl in Hfor. by subst o.
Qed.

Lemma first_failing_branch_decides_witness :
  (parseSplittedControlflow failingBranch 4 2
     (node "bpmn:ParallelGateway" "G" (Some "fork") (Some [8; 9; 10])) ∅).1
  = Throw MissingOperationBinding.
Proof.
  exact (first_failing_branch_decides failingBranch 3 2
           (node "bpmn:ParallelGateway" "G" (Some "fork") (Some [8; 9; 10]))
           [8] 9 [10]
           [([JStr "A"], Some (5, node "bpmn:ParallelGateway" "J1" None None))]
           MissingOperationBinding ∅ eq_refl eq_refl eq_refl).
Defined.

(** X15. A node without a list of outgoing flows is a clean dead end: when
    the segment just parsed hands back such a node, the walk stops with
    the fragments pushed so far, hands back no node and raises nothing. *)
Theorem absent_outgoing_ends_walk h n s ty acc t cur frag le t1 :
  deref h s = Some cur → e_type cur.2 ≠ ty →
  parseProcessSegment h (S n) cur.1 cur.2 t = (Ok (frag, Some le), t1) →
  e_outgoing le.2 = None →
  whileLoop h (S (S n)) s ty acc t = (Ok (acc ++ [frag], None), t1).
Proof.
  intros Hs Hty Hseg Hout.
  by rewrite (whileLoop_no_outgoing h (S n) s ty acc t cur frag le t1
                Hs Hty Hseg Hout).
Qed.

Lemma absent_outgoing_ends_walk_witness :
  whileLoop deadEndBranch 2 (Some 4) "bpmn:ParallelGateway" [] ∅
  = (Ok ([JStr "B"], None), {[ "B" := {| label := "B"; concept := "type" |} ]}).
Proof.
  exact (absent_outgoing_ends_walk deadEndBranch 0 (Some 4)
           "bpmn:ParallelGateway" [] ∅
           (4, node "bpmn:Task" "B" (Some "type") None)
           (JStr "B") (4, node "bpmn:Task" "B" (Some "type") None)
           {[ "B" := {| label := "B"; concept := "type" |} ]}
           eq_refl ltac:(discriminate) eq_refl eq_refl).
Defined.
